(** * just-todo-it: the TODO index and its view model

    A shallow embedding of the indexing and view-model engine of the
    extension: the per-line matcher and file scanner ([todoScanner.ts]),
    the fuzzy filter ([utils.ts]), the tree provider
    ([todoTreeProvider.ts]) and the single-file update of the index
    driven from [extension.ts].

    JavaScript strings are modelled as [string], a sequence of code units
    (here the code units U+0000 to U+00FF); the functions that walk a
    string code unit by code unit work on [list ascii].  Array indices,
    line and column numbers are [nat].  The two locale services of the
    host, [String.prototype.toLowerCase] and
    [String.prototype.localeCompare], are variables of the sections that
    use them. *)

From Stdlib Require Import ZArith Ascii String Lia.
From stdpp Require Import list strings sorting pretty.

Local Open Scope Z_scope.

(** ** Strings as sequences of code units *)

Abbreviation chars := list_ascii_of_string.
Abbreviation of_chars := string_of_list_ascii.

(** ** [utils.ts] *)

Section Utils.

(** [String.prototype.toLowerCase] of the host. *)
Variable toLowerCase : string → string.

(** The [while] loop of [fuzzyMatch].  The state is the pair of indices;
    [strIndex] grows at every turn, so [String.length str - strIndex]
    turns are enough and [fuel] only makes the recursion structural.
    [s[i] === p[j]] compares two optional code units ([undefined] out of
    range).  The result is the final [patternIndex]. *)
Fixpoint fuzzyLoop (fuel : nat) (s pattern : string)
    (strIndex patternIndex : nat) : nat :=
  match fuel with
  | O => patternIndex
  | S fuel' =>
      if bool_decide (strIndex < String.length s)%nat
         && bool_decide (patternIndex < String.length pattern)%nat
      then
        let patternIndex' :=
          if bool_decide (String.get strIndex s = String.get patternIndex pattern)
          then S patternIndex else patternIndex in
        fuzzyLoop fuel' s pattern (S strIndex) patternIndex'
      else patternIndex
  end.

Definition fuzzyMatch (s pattern : string) : bool :=
  let s := toLowerCase s in
  let pattern := toLowerCase pattern in
  let patternIndex := fuzzyLoop (String.length s) s pattern 0 0 in
  bool_decide (patternIndex = String.length pattern).

(** [`${relativePath} TODO(${label}): ${text}`] *)
Definition createSearchableString (relativePath label text : string) : string :=
  relativePath +:+ " TODO(" +:+ label +:+ "): " +:+ text.

End Utils.

(** The greedy left-to-right scan as a function of the two remaining
    suffixes: how many code units of the pattern get matched. *)
Fixpoint greedy (s p : list ascii) : nat :=
  match s, p with
  | c :: s', d :: p' => if bool_decide (c = d) then S (greedy s' p') else greedy s' p
  | _, _ => O
  end.

(** ** [types.ts] *)

Record TodoItem := {
  label : string;         (* the label extracted from TODO(label) *)
  text : string;          (* the text content after the colon *)
  filePath : string;      (* absolute file path *)
  relativePath : string;  (* workspace-relative file path *)
  line : nat;             (* line number, 0-based *)
  column : nat            (* column where the TODO starts *)
}.

Global Instance TodoItem_eq_dec : EqDecision TodoItem.
Proof. solve_decision. Defined.

(** ** [todoScanner.ts] *)

(** The longest prefix of code units of a class, and what follows it. *)
Fixpoint takeWhile (p : ascii → bool) (s : list ascii) : list ascii :=
  match s with
  | c :: s' => if p c then c :: takeWhile p s' else []
  | [] => []
  end.

Fixpoint dropWhile (p : ascii → bool) (s : list ascii) : list ascii :=
  match s with
  | c :: s' => if p c then dropWhile p s' else s
  | [] => []
  end.

(** *** The regular expression

    [TODO_PATTERN], with the global flag, reads: the literal [TODO] and
    an opening parenthesis; a first group of one or more code units
    other than the closing parenthesis; the literal closing parenthesis
    and colon; any white space; a second group of any code units up to
    a line terminator.  It is built from literals, character classes,
    greedy stars of a class, sequencing and capture groups; the matcher
    below is the backtracking matcher of such expressions, in
    continuation-passing style: a greedy star first tries to take one
    more code unit and falls back on stopping when the rest of the
    pattern fails. *)

Inductive regex :=
| Lit (c : ascii)               (* a literal code unit *)
| OneOf (p : ascii → bool)      (* one code unit of a class *)
| StarOf (p : ascii → bool)     (* greedy repetition of a class *)
| Seq (r1 r2 : regex)
| Group (r : regex).            (* capture group *)

(** Captures in the order in which their groups close, and the input
    that is left after the match. *)
Definition captures := list (list ascii).
Definition outcome := option (captures * list ascii).
Definition cont := list ascii → captures → outcome.

Fixpoint star (p : ascii → bool) (s : list ascii) (caps : captures) (k : cont) : outcome :=
  match s with
  | c :: s' =>
      if p c then
        match star p s' caps k with
        | Some r => Some r
        | None => k s caps
        end
      else k s caps
  | [] => k s caps
  end.

Fixpoint run (r : regex) (s : list ascii) (caps : captures) (k : cont) : outcome :=
  match r with
  | Lit c =>
      match s with
      | c' :: s' => if bool_decide (c' = c) then k s' caps else None
      | [] => None
      end
  | OneOf p =>
      match s with
      | c' :: s' => if p c' then k s' caps else None
      | [] => None
      end
  | StarOf p => star p s caps k
  | Seq r1 r2 => run r1 s caps (λ s' caps', run r2 s' caps' k)
  | Group r =>
      run r s caps (λ s' caps', k s' (caps' ++ [take (length s - length s') s]))
  end.

Fixpoint lits (l : list ascii) (r : regex) : regex :=
  match l with
  | [] => r
  | c :: l' => Seq (Lit c) (lits l' r)
  end.

(** [\s] (and what [trim] strips): WhiteSpace and LineTerminator. *)
Definition isWhiteSpace (c : ascii) : bool :=
  match c with
  | "009" | "010" | "011" | "012" | "013" | " " | "160" => true
  | _ => false
  end%char.

(** [.] matches any code unit but a LineTerminator. *)
Definition isLineTerminator (c : ascii) : bool :=
  match c with
  | "010" | "013" => true
  | _ => false
  end%char.

Definition notLineTerminator (c : ascii) : bool := negb (isLineTerminator c).

(** [[^)]] *)
Definition notRParen (c : ascii) : bool := negb (bool_decide (c = ")"%char)).

Definition TODO_PATTERN : regex :=
  lits (chars "TODO(")
    (Seq (Group (Seq (OneOf notRParen) (StarOf notRParen)))
      (lits (chars "):")
        (Seq (StarOf isWhiteSpace) (Group (StarOf notLineTerminator))))).

(** One attempt of the pattern at the start of [s]. *)
Definition matchHere (s : list ascii) : outcome :=
  run TODO_PATTERN s [] (λ s' caps, Some (caps, s')).

(** The result of a successful [exec]: [match.index], [match[1]],
    [match[2]] and the end of the match, which is the [lastIndex] the
    expression is left with. *)
Record RegExpExecArray := {
  index : nat;
  group1 : list ascii;
  group2 : list ascii;
  endIndex : nat
}.

(** The attempts of [exec] at the positions [i], [i+1], ... where [s] is
    the input from position [i] on; the empty suffix is tried too. *)
Fixpoint execFrom (s : list ascii) (i : nat) : option RegExpExecArray :=
  match matchHere s with
  | Some (caps, rest) =>
      Some {| index := i;
              group1 := default [] (caps !! 0%nat);
              group2 := default [] (caps !! 1%nat);
              endIndex := (i + (length s - length rest))%nat |}
  | None =>
      match s with
      | [] => None
      | _ :: s' => execFrom s' (S i)
      end
  end.

(** [TODO_PATTERN.exec(line)] with the global flag, started at
    [lastIndex]; [None] is [null] (and [lastIndex] is reset to 0). *)
Definition exec (line : list ascii) (lastIndex : nat) : option RegExpExecArray :=
  if bool_decide (length line < lastIndex)%nat then None
  else execFrom (drop lastIndex line) lastIndex.

(** [String.prototype.trim] *)
Definition trimStart (s : list ascii) : list ascii := dropWhile isWhiteSpace s.

Definition trimEnd (s : list ascii) : list ascii := reverse (trimStart (reverse s)).

Definition trim (s : list ascii) : list ascii := trimEnd (trimStart s).

(** *** The Matcher: the [while] loop over one line

    The triple is (label, text, column).  Every match is at least eight
    code units long, so [lastIndex] grows at every turn and
    [S (length line)] turns are enough. *)
Fixpoint matchLoop (fuel : nat) (line : list ascii) (lastIndex : nat)
    : list (string * string * nat) :=
  match fuel with
  | O => []
  | S fuel' =>
      match exec line lastIndex with
      | None => []
      | Some m =>
          (of_chars (trim (group1 m)), of_chars (trim (group2 m)), index m)
            :: matchLoop fuel' line (endIndex m)
      end
  end.

Definition matchLine (line : string) : list (string * string * nat) :=
  matchLoop (S (String.length line)) (chars line) 0.

(** [text.split('\n')] *)
Fixpoint splitLines (s : list ascii) : list (list ascii) :=
  match s with
  | [] => [[]]
  | c :: s' =>
      if bool_decide (c = "010"%char) then [] :: splitLines s'
      else match splitLines s' with
           | l :: ls => (c :: l) :: ls
           | [] => [[c]]
           end
  end.

(** What [scanFile] learns from the host about a [uri]: its [fsPath],
    the path relative to the enclosing workspace folder if there is one,
    and the text of the document, [None] when opening it throws. *)
Record Uri := {
  fsPath : string;
  workspaceRelative : option string;
  getText : option string
}.

Definition scanLines (uri : Uri) (relativePath : string) (lines : list string)
    : list TodoItem :=
  mjoin (imap (λ lineIndex ln,
    (λ '(lbl, todoText, col),
       {| label := lbl; text := todoText; filePath := fsPath uri;
          relativePath := relativePath; line := lineIndex; column := col |})
    <$> matchLine ln) lines).

Definition scanFile (uri : Uri) : list TodoItem :=
  match getText uri with
  | None => []
  | Some text =>
      let lines := of_chars <$> splitLines (chars text) in
      let relativePath := default (fsPath uri) (workspaceRelative uri) in
      scanLines uri relativePath lines
  end.

(** ** [todoTreeItem.ts] *)

Inductive TreeItemCollapsibleState := StateNone | Collapsed | Expanded.
Inductive TreeNodeType := NodeLabel | NodeFile | NodeTodo.

Module TodoTreeItem.
(** The constructor arguments; the icon, tooltip and command the
    constructor derives from them are left to the host. *)
Record t := new {
  label : string;
  collapsibleState : TreeItemCollapsibleState;
  nodeType : TreeNodeType;
  todoItem : option TodoItem;
  todoLabel : option string;
  fileName : option string
}.
End TodoTreeItem.

Global Instance TreeItemCollapsibleState_eq_dec : EqDecision TreeItemCollapsibleState.
Proof. solve_decision. Defined.
Global Instance TreeNodeType_eq_dec : EqDecision TreeNodeType.
Proof. solve_decision. Defined.
Global Instance TodoTreeItem_eq_dec : EqDecision TodoTreeItem.t.
Proof. solve_decision. Defined.

(** An optional string is truthy when it is there and not empty. *)
Definition truthy (o : option string) : option string :=
  match o with
  | Some s => if bool_decide (s = "") then None else Some s
  | None => None
  end.

(** ** A JavaScript [Map] with string keys

    Keys are kept in insertion order; [set] on a key that is there
    keeps its place. *)
Section JsMap.
Context {V : Type}.

Definition JsMap := list (string * V).

Fixpoint mapGet (k : string) (m : JsMap) : option V :=
  match m with
  | [] => None
  | (k', v) :: m' => if bool_decide (k' = k) then Some v else mapGet k m'
  end.

Fixpoint mapSet (k : string) (v : V) (m : JsMap) : JsMap :=
  match m with
  | [] => [(k, v)]
  | (k', v') :: m' =>
      if bool_decide (k' = k) then (k', v) :: m' else (k', v') :: mapSet k v m'
  end.

Definition mapKeys (m : JsMap) : list string := m.*1.

End JsMap.
Global Arguments JsMap : clear implicits.

(** ** [todoTreeProvider.ts] *)

Inductive ViewMode := grouped | byTag | flat.

Global Instance ViewMode_eq_dec : EqDecision ViewMode.
Proof. solve_decision. Defined.

Definition VIEW_MODE_LABELS (m : ViewMode) : string :=
  match m with
  | grouped => "Grouped by Tag & File"
  | byTag => "Grouped by Tag"
  | flat => "Flat"
  end.

(** The fields of the provider; [refresh] only fires the change event
    of the host and leaves them alone. *)
Record TodoTreeProvider := {
  todos : list TodoItem;
  viewMode : ViewMode;
  filterPattern : string
}.

Definition initialProvider : TodoTreeProvider :=
  {| todos := []; viewMode := grouped; filterPattern := "" |}.

Definition setTodos (ts : list TodoItem) (p : TodoTreeProvider) : TodoTreeProvider :=
  {| todos := ts; viewMode := viewMode p; filterPattern := filterPattern p |}.

Definition getTodos (p : TodoTreeProvider) : list TodoItem := todos p.

(** [Array.prototype.indexOf]: -1 when the element is not there. *)
Definition indexOf `{EqDecision A} (l : list A) (x : A) : Z :=
  match list_find (λ y, y = x) l with
  | Some (i, _) => Z.of_nat i
  | None => -1
  end.

Definition modes : list ViewMode := [grouped; byTag; flat].

(** Returns the label of the new mode and the updated provider.  The
    index read from [modes] is always in range; out of range the read
    is [undefined] and the model leaves the mode as it was. *)
Definition toggleViewMode (p : TodoTreeProvider) : string * TodoTreeProvider :=
  let currentIndex := indexOf modes (viewMode p) in
  let next := Z.rem (currentIndex + 1) (Z.of_nat (length modes)) in
  let viewMode' := default (viewMode p) (modes !! Z.to_nat next) in
  (VIEW_MODE_LABELS viewMode',
   {| todos := todos p; viewMode := viewMode'; filterPattern := filterPattern p |}).

Definition getViewMode (p : TodoTreeProvider) : ViewMode := viewMode p.

Definition setFilter (pattern : string) (p : TodoTreeProvider) : TodoTreeProvider :=
  {| todos := todos p; viewMode := viewMode p; filterPattern := pattern |}.

Definition getFilter (p : TodoTreeProvider) : string := filterPattern p.

(** [String.prototype.startsWith] and [slice(1)] *)
Fixpoint startsWith (s pre : string) : bool :=
  match pre, s with
  | EmptyString, _ => true
  | String c pre', String d s' => bool_decide (d = c) && startsWith s' pre'
  | String _ _, EmptyString => false
  end.

Definition slice1 (s : string) : string :=
  match s with
  | EmptyString => EmptyString
  | String _ s' => s'
  end.

(** [Array.prototype.sort] with a compare function [cmp].  The sort is
    stable, and for a consistent compare function every stable sort
    returns the same array; the model is the insertion sort, which puts
    an element before the first element of the sorted rest that it does
    not compare greater than. *)
Definition cmpLe {A} (cmp : A → A → Z) : relation A := λ a b, cmp a b ≤ 0.

Fixpoint insertBy {A} (cmp : A → A → Z) (x : A) (l : list A) : list A :=
  match l with
  | [] => [x]
  | y :: l' => if bool_decide (cmp x y ≤ 0) then x :: l else y :: insertBy cmp x l'
  end.

Definition sortBy {A} (cmp : A → A → Z) (l : list A) : list A :=
  foldr (insertBy cmp) [] l.

Section Provider.

Variable toLowerCase : string → string.

(** [String.prototype.localeCompare]: negative, zero or positive. *)
Variable localeCompare : string → string → Z.

Definition getFilteredTodos (p : TodoTreeProvider) : list TodoItem :=
  if bool_decide (filterPattern p = "") then todos p
  else if startsWith (filterPattern p) "@" then
    let labelFilter := slice1 (filterPattern p) in
    filter (λ todo, label todo = labelFilter) (todos p)
  else
    filter (λ todo,
      let searchable := createSearchableString (relativePath todo) (label todo) (text todo) in
      fuzzyMatch toLowerCase searchable (filterPattern p) = true) (todos p).

(** [`TODO(${label}): ${text}`] *)
Definition todoDisplay (todo : TodoItem) : string :=
  "TODO(" +:+ label todo +:+ "): " +:+ text todo.

Definition getFlatItems (ts : list TodoItem) : list TodoTreeItem.t :=
  (λ todo, TodoTreeItem.new (todoDisplay todo) StateNone NodeTodo (Some todo) None None)
  <$> sortBy (λ a b, localeCompare (todoDisplay a) (todoDisplay b)) ts.

(** The grouping loop of [getLabelGroups] and [getFileGroups]: every
    item is pushed on the array its key maps to, a new array if the key
    is not there yet. *)
Definition groupBy (key : TodoItem → string) (ts : list TodoItem) : JsMap (list TodoItem) :=
  foldl (λ m todo,
    let existing := default [] (mapGet (key todo) m) in
    mapSet (key todo) (existing ++ [todo]) m) [] ts.

(** [`${name} (${count})`] *)
Definition countLabel (name : string) (count : nat) : string :=
  name +:+ " (" +:+ pretty count +:+ ")".

(** The sorted keys of a grouping with the length of the array of each. *)
Definition sortedCounts (m : JsMap (list TodoItem)) : list (string * nat) :=
  (λ k, (k, length (default [] (mapGet k m)))) <$> sortBy localeCompare (mapKeys m).

Definition labelNode (g : string * nat) : TodoTreeItem.t :=
  TodoTreeItem.new (countLabel g.1 g.2) Expanded NodeLabel None (Some g.1) None.

Definition getLabelGroups (ts : list TodoItem) : list TodoTreeItem.t :=
  let labelMap := groupBy label ts in
  labelNode <$> sortedCounts labelMap.

Definition fileNode (lbl : string) (g : string * nat) : TodoTreeItem.t :=
  TodoTreeItem.new (countLabel g.1 g.2) Expanded NodeFile None (Some lbl) (Some g.1).

Definition getFileGroups (ts : list TodoItem) (lbl : string) : list TodoTreeItem.t :=
  let labelTodos := filter (λ t, label t = lbl) ts in
  let fileMap := groupBy relativePath labelTodos in
  fileNode lbl <$> sortedCounts fileMap.

(** [todo.text || '(empty)'] *)
Definition textOrEmpty (todo : TodoItem) : string :=
  if bool_decide (text todo = "") then "(empty)" else text todo.

Definition getTodosForFile (ts : list TodoItem) (lbl fileName : string) : list TodoTreeItem.t :=
  (λ todo, TodoTreeItem.new (textOrEmpty todo) StateNone NodeTodo (Some todo) (Some lbl) (Some fileName))
  <$> sortBy (λ a b, localeCompare (text a) (text b))
        (filter (λ t, label t = lbl ∧ relativePath t = fileName) ts).

Definition getTodosForLabel (ts : list TodoItem) (lbl : string) : list TodoTreeItem.t :=
  (λ todo, TodoTreeItem.new (textOrEmpty todo) StateNone NodeTodo (Some todo) (Some lbl) None)
  <$> sortBy (λ a b, localeCompare (text a) (text b))
        (filter (λ t, label t = lbl) ts).

Definition getChildren (p : TodoTreeProvider) (element : option TodoTreeItem.t)
    : list TodoTreeItem.t :=
  let filteredTodos := getFilteredTodos p in
  match element with
  | None =>
      if bool_decide (viewMode p = flat) then getFlatItems filteredTodos
      else getLabelGroups filteredTodos
  | Some element =>
      match TodoTreeItem.nodeType element,
            truthy (TodoTreeItem.todoLabel element),
            truthy (TodoTreeItem.fileName element) with
      | NodeLabel, Some lbl, _ =>
          if bool_decide (viewMode p = byTag) then getTodosForLabel filteredTodos lbl
          else getFileGroups filteredTodos lbl
      | NodeFile, Some lbl, Some fileName =>
          getTodosForFile filteredTodos lbl fileName
      | _, _, _ => []
      end
  end.

End Provider.

(** ** [extension.ts]: the single-file update of the index *)

(** Modelled from the spec: [TodoTreeProvider.setTodosForFile], which
    [scanDocument] and the delete watcher call and which is not part of
    the provider at hand.  It replaces exactly the records of the file
    (matched by absolute path equality) by the given ones and leaves the
    records of every other file untouched. *)
Definition setTodosForFile (path : string) (fileTodos : list TodoItem)
    (p : TodoTreeProvider) : TodoTreeProvider :=
  setTodos (filter (λ t, filePath t ≠ path) (todos p) ++ fileTodos) p.

(** An open text document: the [fsPath] of [document.uri], its path
    relative to the workspace folder if there is one, and
    [document.getText()]. *)
Record TextDocument := {
  documentPath : string;
  documentRelative : option string;
  documentText : string
}.

(** Modelled from the spec: [TodoScanner.scanDocument], which
    [scanDocument] calls and which is not part of the scanner at hand.
    It is the file scanner applied to an open document: the records of
    the file, found by the matcher line by line as [scanFile] finds
    them in the text it reads. *)
Definition scannerScanDocument (document : TextDocument) : list TodoItem :=
  scanFile {| fsPath := documentPath document;
              workspaceRelative := documentRelative document;
              getText := Some (documentText document) |}.

(** [scanDocument]: the records the scanner found in the document
    replace those of its file. *)
Definition scanDocument (document : TextDocument) (p : TodoTreeProvider)
    : TodoTreeProvider :=
  let found := scannerScanDocument document in
  setTodosForFile (documentPath document) found p.

(** The handler of the delete watcher: every deleted file loses its
    records. *)
Definition onDidDeleteFiles (files : list string) (p : TodoTreeProvider) : TodoTreeProvider :=
  foldl (λ p file, setTodosForFile file [] p) p files.

(** ** A concrete host *)

(** A host whose strings are ASCII: the lower-casing of [A]..[Z]. *)
Definition asciiLowerChar (c : ascii) : ascii :=
  let n := nat_of_ascii c in
  if bool_decide (65 ≤ n ≤ 90)%nat then ascii_of_nat (n + 32) else c.

Fixpoint asciiToLowerCase (s : string) : string :=
  match s with
  | EmptyString => EmptyString
  | String c s' => String (asciiLowerChar c) (asciiToLowerCase s')
  end.

(** Comparison of strings code unit by code unit, as a stand-in for a
    collation. *)
Definition codeUnitCompare (a b : string) : Z :=
  match String.compare a b with
  | Lt => -1
  | Eq => 0
  | Gt => 1
  end.

(** ** A small workspace

    Two files: [a.ts] with a TODO labelled [x] on line 0 and one
    labelled [y] on line 1, and [b.ts] with a TODO labelled [x] on
    line 3. *)
Definition newline : string := String "010" "".

Definition a_ts : Uri :=
  {| fsPath := "/work/a.ts";
     workspaceRelative := Some "a.ts";
     getText := Some ("// TODO(x): fix a" +:+ newline +:+ "// TODO(y): fix b") |}.

Definition b_ts : Uri :=
  {| fsPath := "/work/b.ts";
     workspaceRelative := Some "b.ts";
     getText := Some (newline +:+ newline +:+ newline +:+ "// TODO(x): fix c") |}.

(** The provider after the scan of the two files. *)
Definition scanned : TodoTreeProvider :=
  setTodos (scanFile a_ts ++ scanFile b_ts) initialProvider.

(** [a.ts] once its TODOs are gone, and a provider in flat mode. *)
Definition a_ts_done : TextDocument :=
  {| documentPath := "/work/a.ts";
     documentRelative := Some "a.ts";
     documentText := "// fixed a" +:+ newline +:+ "// fixed b" |}.

Definition scannedFlat : TodoTreeProvider :=
  {| todos := todos scanned; viewMode := flat; filterPattern := "" |}.

(** A file whose only TODO has no text after the colon, and the
    provider in flat mode after its scan. *)
Definition d_ts : Uri :=
  {| fsPath := "/work/d.ts";
     workspaceRelative := Some "d.ts";
     getText := Some "// TODO(x):" |}.

Definition emptyBodyFlat : TodoTreeProvider :=
  (toggleViewMode (toggleViewMode (setTodos (scanFile d_ts) initialProvider)).2).2.

(** A file with a TODO labelled [bug] and one labelled [bug-123], and
    the provider scoped to the label [bug]. *)
Definition c_ts : Uri :=
  {| fsPath := "/work/c.ts";
     workspaceRelative := Some "c.ts";
     getText := Some ("// TODO(bug): crash" +:+ newline +:+ "// TODO(bug-123): leak") |}.

Definition scopedToBug : TodoTreeProvider :=
  setFilter "@bug" (setTodos (scanFile c_ts) initialProvider).

(** ** Words used to state what the matcher finds *)

(** [stripPrefix l s] is what follows [l] at the start of [s]. *)
Fixpoint stripPrefix (l s : list ascii) : option (list ascii) :=
  match l, s with
  | [], _ => Some s
  | c :: l', c' :: s' => if bool_decide (c' = c) then stripPrefix l' s' else None
  | _ :: _, [] => None
  end.

(** The code units of [p] are matched, in order, at the strictly
    increasing positions [positions] of [s]. *)
Definition matchedAt (s p : list ascii) (positions : list nat) : Prop :=
  StronglySorted lt positions ∧ Forall2 (λ i c, s !! i = Some c) positions p.

(** The token [TODO(label):] with a label of one or more code units
    other than the closing parenthesis. *)
Definition token (lbl : list ascii) : list ascii :=
  chars "TODO(" ++ lbl ++ chars "):".

Definition isLabel (lbl : list ascii) : Prop :=
  lbl ≠ [] ∧ Forall (λ c, c ≠ ")"%char) lbl.

(** The pattern occurs at column [col] of [line]: the [T] of a token is
    at that offset. *)
Definition occursAt (line : list ascii) (col : nat) : Prop :=
  ∃ lbl rest, isLabel lbl ∧ drop col line = token lbl ++ rest.

(** A segment that the pattern matches from its first to its last code
    unit: a token, white space, and text without line terminator. *)
Definition occurrence (seg : list ascii) : Prop :=
  ∃ lbl ws txt,
    isLabel lbl ∧ Forall (λ c, isWhiteSpace c = true) ws
    ∧ Forall (λ c, isLineTerminator c = false) txt
    ∧ seg = token lbl ++ ws ++ txt.

(** An occurrence of the whole pattern: the column of the [T] of its
    token, the label between the parentheses, the white space after
    the colon and the text. *)
Record Occurrence := {
  occColumn : nat;
  occLabel : list ascii;
  occSpace : list ascii;
  occText : list ascii
}.

Definition occSegment (o : Occurrence) : list ascii :=
  token (occLabel o) ++ occSpace o ++ occText o.

(** The column after the last code unit of the occurrence. *)
Definition occEnd (o : Occurrence) : nat :=
  (occColumn o + length (occSegment o))%nat.

(** [o] is an occurrence of the pattern in [line]: its segment is at
    its column, the white space is all the white space that follows
    the token, and the text runs to the next line terminator or to the
    end of the line. *)
Definition occurrenceIn (line : list ascii) (o : Occurrence) : Prop :=
  isLabel (occLabel o)
  ∧ Forall (λ c, isWhiteSpace c = true) (occSpace o)
  ∧ Forall (λ c, isLineTerminator c = false) (occText o)
  ∧ ∃ rest,
      drop (occColumn o) line = occSegment o ++ rest
      ∧ (∀ c, head (occText o ++ rest) = Some c → isWhiteSpace c = false)
      ∧ (∀ c, head rest = Some c → isLineTerminator c = true).

(** Occurrences in left-to-right order that do not overlap and that
    hold every token of the line: a token starts an occurrence or lies
    in the text of one. *)
Definition occurrencesOf (line : list ascii) (occs : list Occurrence) : Prop :=
  Forall (occurrenceIn line) occs
  ∧ StronglySorted (λ a b, (occEnd a ≤ occColumn b)%nat) occs
  ∧ ∀ col, occursAt line col →
      ∃ o, o ∈ occs ∧ (occColumn o ≤ col < occEnd o)%nat.

(** The triple of an occurrence: the trimmed label, the trimmed text
    and the column. *)
Definition tripleOf (o : Occurrence) : string * string * nat :=
  (of_chars (trim (occLabel o)), of_chars (trim (occText o)), occColumn o).

(** ** [todoScanner.ts]: the files of a workspace scan *)

Definition textExtensions : list string :=
  [ (* programming languages *)
    ".ts"; ".tsx"; ".js"; ".jsx"; ".mjs"; ".cjs";
    ".py"; ".pyw";
    ".java"; ".kt"; ".kts"; ".scala";
    ".c"; ".cpp"; ".cc"; ".cxx"; ".h"; ".hpp"; ".hxx";
    ".cs"; ".fs"; ".fsx";
    ".go";
    ".rs";
    ".rb"; ".erb";
    ".php";
    ".swift";
    ".m"; ".mm";
    ".lua";
    ".pl"; ".pm";
    ".r"; ".R";
    ".dart";
    ".ex"; ".exs";
    ".clj"; ".cljs"; ".cljc";
    ".hs"; ".lhs";
    ".elm";
    ".vue"; ".svelte";
    (* web *)
    ".html"; ".htm"; ".xhtml";
    ".css"; ".scss"; ".sass"; ".less"; ".styl";
    (* data and configuration *)
    ".json"; ".jsonc"; ".json5";
    ".xml"; ".xsl"; ".xslt";
    ".yaml"; ".yml";
    ".toml";
    ".ini"; ".cfg"; ".conf";
    ".env";
    ".properties";
    (* documentation *)
    ".md"; ".markdown"; ".mdx";
    ".txt"; ".text";
    ".rst";
    ".adoc";
    (* shell and scripts *)
    ".sh"; ".bash"; ".zsh"; ".fish";
    ".ps1"; ".psm1"; ".psd1";
    ".bat"; ".cmd";
    (* other *)
    ".sql";
    ".graphql"; ".gql";
    ".proto";
    ".tf"; ".tfvars";
    ".dockerfile";
    ".makefile";
    ".gradle";
    ".cmake" ].

Definition extensionlessTextFiles : list string :=
  [ "dockerfile"; "makefile"; "gemfile"; "rakefile"; "procfile";
    "vagrantfile"; "jenkinsfile"; "brewfile";
    ".gitignore"; ".gitattributes"; ".editorconfig";
    ".prettierrc"; ".eslintrc"; ".babelrc";
    "license"; "readme"; "changelog"; "contributing"; "authors" ].

(** [String.prototype.endsWith] *)
Fixpoint isPrefix (pre s : list ascii) : bool :=
  match pre, s with
  | [], _ => true
  | c :: pre', d :: s' => bool_decide (d = c) && isPrefix pre' s'
  | _ :: _, [] => false
  end.

Definition endsWith (s suffix : string) : bool :=
  isPrefix (reverse (chars suffix)) (reverse (chars s)).

(** The separators of [split(/[/\\]/)]: the slash and the backslash. *)
Definition isSeparator (c : ascii) : bool :=
  match c with
  | "/" | "\" => true
  | _ => false
  end%char.

Fixpoint splitPath (s : list ascii) : list (list ascii) :=
  match s with
  | [] => [[]]
  | c :: s' =>
      if isSeparator c then [] :: splitPath s'
      else match splitPath s' with
           | l :: ls => (c :: l) :: ls
           | [] => [[c]]
           end
  end.

(** [lowerPath.split(/[/\\]/).pop() || ''] *)
Definition fileNameOf (lowerPath : string) : string :=
  default "" (last (of_chars <$> splitPath (chars lowerPath))).

Section Workspace.

Variable toLowerCase : string → string.

Definition isTextFile (filePath : string) : bool :=
  let lowerPath := toLowerCase filePath in
  if existsb (λ ext, endsWith lowerPath ext) textExtensions then true
  else
    let fileName := fileNameOf lowerPath in
    existsb (λ name, bool_decide (fileName = name) || startsWith fileName (name +:+ "."))
            extensionlessTextFiles.

(** [scanWorkspace], given the files that [findFiles] returns (the
    exclusion of directories and minified files is the host's): the
    text-like files are scanned and the results are flattened in the
    order of the files. *)
Definition scanWorkspace (files : list Uri) : list TodoItem :=
  let textFiles := filter (λ file, isTextFile (fsPath file) = true) files in
  let results := scanFile <$> textFiles in
  mjoin results.

End Workspace.

(** ** [searchViewProvider.ts] and [extension.ts]: the commands

    The state of the extension: the tree provider, the query the search
    view remembers ([_currentQuery]) and the description of the tree
    view, which is not set before the first update. *)
Record Extension := {
  treeProvider : TodoTreeProvider;
  currentQuery : string;
  description : option string
}.

Definition activated : Extension :=
  {| treeProvider := initialProvider; currentQuery := ""; description := None |}.

Definition doubleQuote : string := String "034" "".

(** The description [updateTreeViewTitle] computes. *)
Definition treeViewTitle (p : TodoTreeProvider) : string :=
  let filter := getFilter p in
  let todos := getTodos p in
  if bool_decide (filter = "") then
    pretty (length todos) +:+ " TODO"
      +:+ (if bool_decide (length todos = 1%nat) then "" else "s")
  else "Filtering: " +:+ doubleQuote +:+ filter +:+ doubleQuote.

Definition updateTreeViewTitle (e : Extension) : Extension :=
  {| treeProvider := treeProvider e;
     currentQuery := currentQuery e;
     description := Some (treeViewTitle (treeProvider e)) |}.

Definition withProvider (f : TodoTreeProvider → TodoTreeProvider) (e : Extension) : Extension :=
  {| treeProvider := f (treeProvider e);
     currentQuery := currentQuery e;
     description := description e |}.

Definition withQuery (query : string) (e : Extension) : Extension :=
  {| treeProvider := treeProvider e;
     currentQuery := query;
     description := description e |}.

(** The callback the search view is created with. *)
Definition onSearch (query : string) (e : Extension) : Extension :=
  updateTreeViewTitle (withProvider (setFilter query) e).

(** [SearchViewProvider.clearSearch] and [setQuery]; the message posted
    to the webview is left to the host. *)
Definition clearSearch (e : Extension) : Extension := onSearch "" (withQuery "" e).

Definition setQuery (query : string) (e : Extension) : Extension := withQuery query e.

(** What can happen to the extension: the two messages of the webview,
    the commands, and the end of a workspace scan, with the files found
    or [None] when the enumeration throws. *)
Inductive Event :=
| WebviewSearch (query : string)
| WebviewClear
| SearchCommand (input : option string)
| ClearSearchCommand
| ScopeToLabelCommand (item : option TodoTreeItem.t)
| ToggleFlatCommand
| ScanWorkspace (found : option (list Uri)).

Section Commands.

Variable toLowerCase : string → string.

Definition handle (ev : Event) (e : Extension) : Extension :=
  match ev with
  | WebviewSearch query => onSearch query (withQuery query e)
  | WebviewClear => onSearch "" (withQuery "" e)
  | SearchCommand None => e
  | SearchCommand (Some input) =>
      updateTreeViewTitle (setQuery input (withProvider (setFilter input) e))
  | ClearSearchCommand =>
      updateTreeViewTitle (clearSearch (withProvider (setFilter "") e))
  | ScopeToLabelCommand item =>
      match item with
      | Some item =>
          match truthy (TodoTreeItem.todoLabel item) with
          | Some todoLabel =>
              let labelFilter := "@" +:+ todoLabel in
              updateTreeViewTitle
                (setQuery labelFilter (withProvider (setFilter labelFilter) e))
          | None => e
          end
      | None => e
      end
  | ToggleFlatCommand => withProvider (λ p, (toggleViewMode p).2) e
  | ScanWorkspace None => e
  | ScanWorkspace (Some files) =>
      updateTreeViewTitle (withProvider (setTodos (scanWorkspace toLowerCase files)) e)
  end.

Definition run_events (evs : list Event) (e : Extension) : Extension :=
  foldl (λ e ev, handle ev e) e evs.

End Commands.

(** ** Words used to state what the scanner and the tree do *)

(** The record [scanFile] makes of a triple found on line [lineIndex]. *)
Definition recordOf (uri : Uri) (rel : string) (lineIndex : nat)
    (tr : string * string * nat) : TodoItem :=
  let '(lbl, todoText, col) := tr in
  {| label := lbl; text := todoText; filePath := fsPath uri;
     relativePath := rel; line := lineIndex; column := col |}.

(** Position order of two records of a file. *)
Definition positionLt (a b : TodoItem) : Prop :=
  (line a < line b)%nat ∨ (line a = line b ∧ (column a < column b)%nat).

(** A string that neither starts nor ends with white space. *)
Definition trimmed (s : string) : Prop := trim (chars s) = chars s.

(** The carriage return. *)
Definition CR : ascii := "013"%char.

(** The text with a carriage return before every line feed. *)
Fixpoint withCarriageReturns (s : list ascii) : list ascii :=
  match s with
  | [] => []
  | c :: s' =>
      if bool_decide (c = "010"%char) then CR :: c :: withCarriageReturns s'
      else c :: withCarriageReturns s'
  end.


(** What every handler of the extension keeps: the query the search
    view remembers is the filter of the tree, the description, once it
    is set, is the one of the current index and filter, and as long as
    it is not set nothing has been scanned or searched. *)
Definition consistent (e : Extension) : Prop :=
  currentQuery e = getFilter (treeProvider e)
  ∧ (description e = None ∨ description e = Some (treeViewTitle (treeProvider e)))
  ∧ (description e = None → getTodos (treeProvider e) = [] ∧ currentQuery e = "").

(** The decimal digits. *)
Definition isDigit (c : ascii) : bool :=
  bool_decide (48 ≤ nat_of_ascii c ≤ 57)%nat.

(** * Properties *)

(** ** Strings *)

Lemma chars_length s : length (chars s) = String.length s.
Proof. induction s; simpl; congruence. Qed.

Lemma chars_lookup s i : chars s !! i = String.get i s.
Proof.
  revert i. induction s as [|c s IH]; intros [|i]; simpl; auto.
Qed.

(** ** The fuzzy matcher *)

Lemma greedy_le s p : (greedy s p ≤ length p)%nat.
Proof.
  revert p. induction s as [|c s IH]; intros [|d p]; simpl; try lia.
  case_bool_decide; [specialize (IH p) | specialize (IH (d :: p))]; simpl in *; lia.
Qed.

Lemma greedy_sublist s p : greedy s p = length p ↔ p `sublist_of` s.
Proof.
  revert p. induction s as [|c s IH]; intros [|d p]; simpl.
  - split; [constructor | done].
  - split; [done | intros H; inversion H].
  - split; [intros _; apply sublist_nil_l | done].
  - case_bool_decide as Hcd.
    + subst d. rewrite sublist_cons_r. split.
      * intros [= H]. right. exists p. split; [done | by apply IH].
      * intros [H | (p' & [= ->] & H)]; [| f_equal; by apply IH].
        f_equal. apply IH. etrans; [| exact H]. by apply sublist_cons.
    + rewrite IH, sublist_cons_r. split; [by left |].
      intros [H | (p' & [= ? ?] & _)]; [done | congruence].
Qed.

(** The loop, started at indices [i] and [j] with enough fuel, adds to
    [j] what the greedy scan matches on the two remaining suffixes. *)
Lemma fuzzyLoop_greedy fuel s p i j :
  (String.length s - i ≤ fuel)%nat →
  fuzzyLoop fuel s p i j = (j + greedy (drop i (chars s)) (drop j (chars p)))%nat.
Proof.
  revert i j. induction fuel as [|fuel IH]; intros i j Hfuel; simpl.
  - rewrite drop_ge by (rewrite chars_length; lia). simpl. lia.
  - case_bool_decide as Hi; simpl.
    2:{ rewrite drop_ge by (rewrite chars_length; lia). simpl. lia. }
    case_bool_decide as Hj; simpl.
    2:{ rewrite (drop_ge (chars p)) by (rewrite chars_length; lia).
        destruct (drop i (chars s)); simpl; lia. }
    rewrite IH by lia. rewrite <- !chars_lookup.
    destruct (lookup_lt_is_Some_2 (chars s) i) as [c Hc];
      [rewrite chars_length; lia |].
    destruct (lookup_lt_is_Some_2 (chars p) j) as [d Hd];
      [rewrite chars_length; lia |].
    rewrite (drop_S _ _ _ Hc), (drop_S _ _ _ Hd), Hc, Hd. simpl.
    repeat case_bool_decide; simplify_eq; try lia.
    rewrite (drop_S _ _ _ Hd). lia.
Qed.

(** More fuel than the length of the haystack changes nothing: the loop
    has stopped by itself. *)
Lemma fuzzyLoop_fuel fuel s p :
  (String.length s ≤ fuel)%nat →
  fuzzyLoop fuel s p 0 0 = fuzzyLoop (String.length s) s p 0 0.
Proof. intros H. rewrite !fuzzyLoop_greedy by lia. done. Qed.

Lemma fuzzyMatch_sublist toLowerCase s p :
  fuzzyMatch toLowerCase s p = true ↔
  chars (toLowerCase p) `sublist_of` chars (toLowerCase s).
Proof.
  unfold fuzzyMatch. rewrite fuzzyLoop_greedy by lia. simpl.
  rewrite bool_decide_eq_true, <- greedy_sublist, chars_length. done.
Qed.

(** ** Subsequences and positions *)

Lemma positions_shift (l : list nat) : Forall (lt 0) l → ∃ l', l = S <$> l'.
Proof.
  induction 1 as [|i l Hi _ [l' ->]]; [by exists [] |].
  destruct i as [|i]; [lia |]. by exists (i :: l').
Qed.

Lemma positions_sorted_S (l : list nat) :
  StronglySorted lt (S <$> l) ↔ StronglySorted lt l.
Proof.
  induction l as [|i l IH]; [done |].
  rewrite fmap_cons, !StronglySorted_cons, Forall_fmap, IH.
  split; intros [Hall ?]; (split; [| done]);
    (eapply Forall_impl; [exact Hall |]); simpl; intros; lia.
Qed.

Lemma matchedAt_nil s : matchedAt s [] [].
Proof. split; constructor. Qed.

Lemma matchedAt_S c s p l : matchedAt (c :: s) p (S <$> l) ↔ matchedAt s p l.
Proof. unfold matchedAt. by rewrite positions_sorted_S, Forall2_fmap_l. Qed.

Lemma matchedAt_here c s p l :
  matchedAt (c :: s) (c :: p) (0%nat :: (S <$> l)) ↔ matchedAt s p l.
Proof.
  unfold matchedAt.
  rewrite StronglySorted_cons, positions_sorted_S, Forall2_cons, Forall2_fmap_l.
  split.
  - by intros [[_ ?] [_ ?]].
  - intros [? ?]. split; [split; [| done] | done].
    apply Forall_fmap, Forall_true. simpl. intros; lia.
Qed.

(** A list is a subsequence of another exactly when its elements can
    be matched in order at strictly increasing positions. *)
Lemma sublist_matchedAt (p s : list ascii) :
  p `sublist_of` s ↔ ∃ positions, matchedAt s p positions.
Proof.
  split.
  - induction 1 as [|c p s _ [l IH]|c p s _ [l IH]].
    + exists []. apply matchedAt_nil.
    + exists (0%nat :: (S <$> l)). by apply matchedAt_here.
    + exists (S <$> l). by apply matchedAt_S.
  - intros [l H]. revert p l H. induction s as [|c s IH]; intros p l [Hsorted Hall].
    + destruct Hall as [|i d l p Hi _]; [constructor | done].
    + destruct Hall as [|i d l p Hi Hall]; [apply sublist_nil_l |].
      apply StronglySorted_cons in Hsorted as [Hlt Hsorted].
      destruct i as [|i].
      * injection Hi as ->.
        destruct (positions_shift l) as [l' ->];
          [eapply Forall_impl; [exact Hlt |]; simpl; intros; lia |].
        apply sublist_skip, (IH p l'). apply (matchedAt_S d). by split.
      * destruct (positions_shift (S i :: l)) as [l' Hl'].
        { constructor; [lia |]. eapply Forall_impl; [exact Hlt |]. simpl. intros; lia. }
        apply sublist_cons, (IH (d :: p) l'). apply (matchedAt_S c). rewrite <- Hl'.
        split; [by apply StronglySorted_cons | by constructor].
Qed.

(** C2: [fuzzyMatch] looks at its arguments through [toLowerCase] only
    (it is case-insensitive), it answers [true] exactly when the
    lower-cased needle is a subsequence of the lower-cased haystack,
    that is when its code units can be matched in order at strictly
    increasing positions of the haystack, and the empty needle matches
    every haystack. *)
Theorem fuzzyMatch_subsequence (toLowerCase : string → string)
    (lower_empty : toLowerCase "" = "") (s p : string) :
  (fuzzyMatch toLowerCase s p = true ↔
     chars (toLowerCase p) `sublist_of` chars (toLowerCase s))
  ∧ (fuzzyMatch toLowerCase s p = true ↔
       ∃ positions, matchedAt (chars (toLowerCase s)) (chars (toLowerCase p)) positions)
  ∧ (∀ s' p', toLowerCase s' = toLowerCase s → toLowerCase p' = toLowerCase p →
       fuzzyMatch toLowerCase s' p' = fuzzyMatch toLowerCase s p)
  ∧ fuzzyMatch toLowerCase s "" = true.
Proof.
  split; [apply fuzzyMatch_sublist |].
  split; [by rewrite fuzzyMatch_sublist, sublist_matchedAt |]. split.
  - intros s' p' Hs Hp. unfold fuzzyMatch. by rewrite Hs, Hp.
  - apply fuzzyMatch_sublist. rewrite lower_empty. apply sublist_nil_l.
Qed.

Lemma fuzzyMatch_subsequence_witness :
  chars (asciiToLowerCase "Auth") `sublist_of` chars (asciiToLowerCase "authentication.ts").
Proof.
  refine (proj1 (proj1 (fuzzyMatch_subsequence asciiToLowerCase _
                          "authentication.ts" "Auth")) _); reflexivity.
Defined.

Example fuzzyMatch_auth :
  fuzzyMatch asciiToLowerCase "authentication.ts" "auth" = true
  ∧ fuzzyMatch asciiToLowerCase "foo.ts" "xyz" = false.
Proof. split; reflexivity. Qed.

(** ** The regular expression *)

Section Spans.
Variable p : ascii → bool.
Implicit Types s : list ascii.

Lemma takeWhile_dropWhile s : takeWhile p s ++ dropWhile p s = s.
Proof. induction s as [|c s IH]; simpl; [done |]. destruct (p c); simpl; congruence. Qed.

Lemma takeWhile_Forall s : Forall (λ c, p c = true) (takeWhile p s).
Proof.
  induction s as [|c s IH]; simpl; [constructor |].
  destruct (p c) eqn:Hc; by constructor.
Qed.

Lemma dropWhile_head s c s' : dropWhile p s = c :: s' → p c = false.
Proof.
  induction s as [|d s IH]; simpl; [done |].
  destruct (p d) eqn:Hd; [done |]. by intros [= <- _].
Qed.

Lemma takeWhile_app l s :
  Forall (λ c, p c = true) l → takeWhile p (l ++ s) = l ++ takeWhile p s.
Proof. induction 1 as [|c l Hc _ IH]; simpl; [done |]. by rewrite Hc, IH. Qed.

Lemma dropWhile_app l s :
  Forall (λ c, p c = true) l → dropWhile p (l ++ s) = dropWhile p s.
Proof. induction 1 as [|c l Hc _ IH]; simpl; [done |]. by rewrite Hc. Qed.

Lemma takeWhile_all s : Forall (λ c, p c = true) s → takeWhile p s = s.
Proof. induction 1 as [|c l Hc _ IH]; simpl; [done |]. by rewrite Hc, IH. Qed.

Lemma dropWhile_all s : Forall (λ c, p c = true) s → dropWhile p s = [].
Proof. induction 1 as [|c l Hc _ IH]; simpl; [done |]. by rewrite Hc. Qed.

Lemma dropWhile_length s : (length (dropWhile p s) ≤ length s)%nat.
Proof. induction s as [|c s IH]; simpl; [done |]. destruct (p c); simpl; lia. Qed.

Lemma take_dropWhile s : take (length s - length (dropWhile p s)) s = takeWhile p s.
Proof.
  rewrite <- (takeWhile_dropWhile s) at 1 3. rewrite length_app.
  replace (_ - _)%nat with (length (takeWhile p s)) by lia.
  by rewrite take_app_length.
Qed.

Lemma dropWhile_suffix s : dropWhile p s `suffix_of` s.
Proof. exists (takeWhile p s). by rewrite takeWhile_dropWhile. Qed.

(** The star, when the rest of the pattern cannot start with a code
    unit of the class: nothing shorter than the longest run works. *)
Lemma star_refuse s caps k :
  (∀ c s', p c = true → k (c :: s') caps = None) →
  star p s caps k = k (dropWhile p s) caps.
Proof.
  intros Hk. induction s as [|c s IH]; simpl; [done |].
  destruct (p c) eqn:Hc; [| done]. rewrite IH.
  destruct (k (dropWhile p s) caps) eqn:Hr; [done |]. by apply Hk.
Qed.

(** The star, when the rest of the pattern accepts what follows the
    longest run: the longest run is taken. *)
Lemma star_accept s caps k :
  is_Some (k (dropWhile p s) caps) →
  star p s caps k = k (dropWhile p s) caps.
Proof.
  induction s as [|c s IH]; simpl; [done |].
  destruct (p c) eqn:Hc; [| done]. intros Hk. rewrite IH by done.
  by destruct Hk as [r ->].
Qed.

End Spans.

Lemma stripPrefix_Some l s s' : stripPrefix l s = Some s' ↔ s = l ++ s'.
Proof.
  revert s. induction l as [|c l IH]; intros [|d s]; simpl.
  - split; congruence.
  - split; congruence.
  - split; [done | discriminate].
  - case_bool_decide as Hc; [subst d | by split; [| intros [= ? ?]]].
    rewrite IH. split; congruence.
Qed.

Lemma stripPrefix_app l s : stripPrefix l (l ++ s) = Some s.
Proof. by apply stripPrefix_Some. Qed.

Lemma run_lits l r s caps k :
  run (lits l r) s caps k
  = match stripPrefix l s with
    | Some s' => run r s' caps k
    | None => None
    end.
Proof.
  revert s. induction l as [|c l IH]; intros s; simpl; [done |].
  destruct s as [|d s]; [done |]. case_bool_decide; [apply IH | done].
Qed.

(** What one attempt of the pattern does, without backtracking: the
    label is the longest run of code units other than [)] after
    [TODO(], it must not be empty and [):] must follow it; the white
    space after that is skipped and the text runs up to the next line
    terminator. *)
Lemma matchHere_unfold s :
  matchHere s =
  match stripPrefix (chars "TODO(") s with
  | None => None
  | Some s1 =>
      let lbl := takeWhile notRParen s1 in
      match lbl, stripPrefix (chars "):") (dropWhile notRParen s1) with
      | _ :: _, Some s3 =>
          let s4 := dropWhile isWhiteSpace s3 in
          Some ([lbl; takeWhile notLineTerminator s4], dropWhile notLineTerminator s4)
      | _, _ => None
      end
  end.
Proof.
  unfold matchHere, TODO_PATTERN. rewrite run_lits.
  destruct (stripPrefix (chars "TODO(") s) as [s1 |]; [| done].
  cbn [run]. destruct s1 as [|c s1]; [done |]. cbn [takeWhile dropWhile].
  destruct (notRParen c) eqn:Hc.
  2:{ simpl. unfold notRParen in Hc. apply negb_false_iff, bool_decide_eq_true in Hc.
      subst c. done. }
  rewrite star_refuse.
  2:{ intros d s' Hd. rewrite run_lits. simpl.
      unfold notRParen in Hd. apply negb_true_iff, bool_decide_eq_false in Hd.
      by rewrite bool_decide_eq_false_2. }
  rewrite run_lits.
  destruct (stripPrefix (chars "):") (dropWhile notRParen s1)) as [s3 |] eqn:Hs3; [| done].
  cbn [run]. rewrite star_accept; rewrite star_accept; try done.
  cbn [app length]. rewrite Nat.sub_succ_l by apply dropWhile_length.
  cbn [take]. by rewrite !take_dropWhile.
Qed.

Lemma notRParen_true c : notRParen c = true ↔ c ≠ ")"%char.
Proof. unfold notRParen. by rewrite negb_true_iff, bool_decide_eq_false. Qed.

Lemma whitespace_notRParen c : isWhiteSpace c = true → c ≠ ")"%char.
Proof. by intros H ->. Qed.

Lemma isLabel_notRParen lbl : isLabel lbl → Forall (λ c, notRParen c = true) lbl.
Proof.
  intros [_ H]. eapply Forall_impl; [exact H |]. intros c. by rewrite notRParen_true.
Qed.

Lemma token_length lbl : length (token lbl) = (7 + length lbl)%nat.
Proof. unfold token. rewrite !length_app. simpl. lia. Qed.

(** One attempt at a token: the label is captured as it is, the text
    is what follows the white space up to the next line terminator. *)
Lemma matchHere_token lbl rest :
  isLabel lbl →
  matchHere (token lbl ++ rest)
  = Some ([lbl; takeWhile notLineTerminator (dropWhile isWhiteSpace rest)],
          dropWhile notLineTerminator (dropWhile isWhiteSpace rest)).
Proof.
  intros Hlbl. pose proof (isLabel_notRParen _ Hlbl) as Hall.
  rewrite matchHere_unfold. unfold token. rewrite <- !app_assoc, stripPrefix_app.
  cbn zeta. rewrite takeWhile_app, dropWhile_app by done.
  change (takeWhile notRParen (chars "):" ++ rest)) with (@nil ascii).
  change (dropWhile notRParen (chars "):" ++ rest)) with (chars "):" ++ rest).
  rewrite app_nil_r, stripPrefix_app.
  destruct Hlbl as [Hne _]. by destruct lbl.
Qed.

(** An attempt succeeds at a token only. *)
Lemma matchHere_Some s caps rest :
  matchHere s = Some (caps, rest) →
  ∃ lbl after, isLabel lbl ∧ s = token lbl ++ after.
Proof.
  rewrite matchHere_unfold.
  destruct (stripPrefix (chars "TODO(") s) as [s1 |] eqn:H1; [| done].
  cbn zeta. destruct (takeWhile notRParen s1) as [|c lbl] eqn:Hl; [done |].
  destruct (stripPrefix (chars "):") (dropWhile notRParen s1)) as [s3 |] eqn:H3; [| done].
  intros _. exists (c :: lbl), s3. split.
  - split; [done |]. rewrite <- Hl.
    eapply Forall_impl; [apply takeWhile_Forall |]. intros d. by rewrite notRParen_true.
  - apply stripPrefix_Some in H1, H3. unfold token.
    rewrite <- !app_assoc, <- H3, <- Hl, takeWhile_dropWhile. done.
Qed.

Lemma occursAt_matchHere line col :
  occursAt line col ↔ is_Some (matchHere (drop col line)).
Proof.
  split.
  - intros (lbl & rest & Hlbl & ->). rewrite matchHere_token by done. eauto.
  - intros [[caps rest] H]. apply matchHere_Some in H as (lbl & after & ? & ?).
    by exists lbl, after.
Qed.

Lemma occursAt_lt line col : occursAt line col → (col + 8 ≤ length line)%nat.
Proof.
  intros (lbl & rest & [Hne _] & Hd).
  assert (length (drop col line) = length (token lbl ++ rest)) as Hlen by (by rewrite Hd).
  rewrite length_drop, length_app, token_length in Hlen.
  destruct lbl; [done |]. simpl in Hlen. lia.
Qed.

(** A token determines its label and what follows it. *)
Lemma token_inj lbl1 rest1 lbl2 rest2 :
  isLabel lbl1 → isLabel lbl2 →
  token lbl1 ++ rest1 = token lbl2 ++ rest2 → lbl1 = lbl2 ∧ rest1 = rest2.
Proof.
  intros H1 H2 Heq.
  pose proof (matchHere_token lbl1 rest1 H1) as M1.
  pose proof (matchHere_token lbl2 rest2 H2) as M2.
  rewrite Heq, M2 in M1. injection M1 as <- _ _.
  split; [done |]. by apply app_inv_head in Heq.
Qed.

(** *** [exec] *)

Lemma execFrom_None s i : execFrom s i = None → ∀ j, matchHere (drop j s) = None.
Proof.
  revert i. induction s as [|c s IH]; intros i; simpl.
  - intros _ j. by rewrite drop_nil.
  - destruct (matchHere (c :: s)) as [[caps rest] |] eqn:H; [done |].
    intros Hs [|j]; [done |]. simpl. by eapply IH.
Qed.

Lemma execFrom_Some s i (m : RegExpExecArray) :
  execFrom s i = Some m →
  ∃ j caps rest,
    (j ≤ length s)%nat ∧ index m = (i + j)%nat
    ∧ (∀ j', (j' < j)%nat → matchHere (drop j' s) = None)
    ∧ matchHere (drop j s) = Some (caps, rest)
    ∧ group1 m = default [] (caps !! 0%nat)
    ∧ group2 m = default [] (caps !! 1%nat)
    ∧ endIndex m = (i + j + (length (drop j s) - length rest))%nat.
Proof.
  revert i. induction s as [|c s IH]; intros i.
  - done.
  - cbn [execFrom]. destruct (matchHere (c :: s)) as [[caps rest] |] eqn:H.
    + intros [= <-]. exists 0%nat, caps, rest. simpl.
      repeat split; first [done | lia | intros; lia].
    + intros (j & caps & rest & Hj & Hi & Hfirst & Hm & Hg1 & Hg2 & He)%IH.
      exists (S j), caps, rest. cbn [drop length].
      repeat split; try done; try lia.
      intros [|j'] Hlt; [done |]. apply Hfirst. lia.
Qed.

Lemma drop_suffix_length {A} (s rest : list A) :
  rest `suffix_of` s → drop (length s - length rest) s = rest.
Proof.
  intros [k ->]. rewrite length_app.
  replace (_ - _)%nat with (length k) by lia. apply drop_app_length.
Qed.

(** What a successful [exec] returns: the leftmost occurrence at or
    after [lastIndex]. *)
Lemma exec_Some line from m :
  exec line from = Some m →
  (from ≤ index m)%nat
  ∧ (∀ col, (from ≤ col < index m)%nat → ¬ occursAt line col)
  ∧ ∃ lbl after,
      isLabel lbl
      ∧ drop (index m) line = token lbl ++ after
      ∧ group1 m = lbl
      ∧ group2 m = takeWhile notLineTerminator (dropWhile isWhiteSpace after)
      ∧ drop (endIndex m) line = dropWhile notLineTerminator (dropWhile isWhiteSpace after)
      ∧ (index m + length (token lbl) ≤ endIndex m ≤ length line)%nat.
Proof.
  unfold exec. case_bool_decide as Hfrom; [done |].
  intros (j & caps & rest & Hj & Hi & Hfirst & Hm & Hg1 & Hg2 & He)%execFrom_Some.
  rewrite length_drop in Hj. rewrite drop_drop in Hm, He.
  split; [lia |]. split.
  { intros col Hcol Hocc. apply occursAt_matchHere in Hocc as [r Hr].
    specialize (Hfirst (col - from)%nat). rewrite drop_drop in Hfirst.
    replace (from + (col - from))%nat with col in Hfirst by lia.
    rewrite Hfirst in Hr by lia. done. }
  pose proof Hm as (lbl & after & Hlbl & Hd)%matchHere_Some.
  rewrite Hd, matchHere_token in Hm by done. injection Hm as <- <-.
  exists lbl, after. rewrite Hi. simpl in Hg1, Hg2.
  set (rest := dropWhile notLineTerminator (dropWhile isWhiteSpace after)) in *.
  assert (rest `suffix_of` token lbl ++ after) as Hsuf.
  { apply suffix_app_r. etrans; apply dropWhile_suffix. }
  assert (length rest ≤ length after)%nat as Hlen.
  { unfold rest. etrans; apply dropWhile_length. }
  assert (length (token lbl ++ after) = length line - (from + j))%nat as Hlen'
    by (by rewrite <- Hd, length_drop).
  rewrite length_app in Hlen'.
  do 4 (split; [done |]). split; [| split].
  - rewrite He, Hd. rewrite <- drop_drop, Hd. by apply drop_suffix_length.
  - rewrite He, Hd, length_app. lia.
  - rewrite He, Hd, length_app. lia.
Qed.

Lemma exec_None line from :
  exec line from = None ↔ ∀ col, (from ≤ col)%nat → ¬ occursAt line col.
Proof.
  split.
  - unfold exec. case_bool_decide as Hfrom.
    + intros _ col Hcol Hocc%occursAt_lt. lia.
    + intros H col Hcol [r Hr]%occursAt_matchHere.
      pose proof (execFrom_None _ _ H (col - from)%nat) as Hn.
      rewrite drop_drop in Hn. replace (from + (col - from))%nat with col in Hn by lia.
      congruence.
  - intros H. destruct (exec line from) as [m |] eqn:Hm; [| done].
    apply exec_Some in Hm as (Hfrom & _ & lbl & after & Hlbl & Hd & _).
    destruct (H (index m) Hfrom). by exists lbl, after.
Qed.

(** *** The loop over one line *)

Lemma dropWhile_Forall p (P : ascii → Prop) s : Forall P s → Forall P (dropWhile p s).
Proof.
  induction 1 as [|c s Hc Hs IH]; simpl; [constructor |].
  destruct (p c); [done | by constructor].
Qed.

Lemma dropWhile_idemp p s : dropWhile p (dropWhile p s) = dropWhile p s.
Proof.
  destruct (dropWhile p s) as [|c s'] eqn:H; [done |].
  apply dropWhile_head in H. simpl. by rewrite H.
Qed.

Lemma trim_dropWhile s : trim (dropWhile isWhiteSpace s) = trim s.
Proof. unfold trim, trimStart. by rewrite dropWhile_idemp. Qed.

Lemma trim_whitespace ws : Forall (λ c, isWhiteSpace c = true) ws → trim ws = [].
Proof. intros H. unfold trim, trimStart. by rewrite dropWhile_all. Qed.

(** The occurrences are the segments that one attempt of the pattern
    matches to their end. *)
Lemma occurrence_matchHere seg :
  occurrence seg ↔ ∃ caps, matchHere seg = Some (caps, []).
Proof.
  split.
  - intros (lbl & ws & txt & Hlbl & Hws & Htxt & ->).
    rewrite matchHere_token by done. eexists. do 2 f_equal.
    rewrite dropWhile_app by done. apply dropWhile_all, dropWhile_Forall.
    eapply Forall_impl; [exact Htxt |]. intros c Hc. unfold notLineTerminator.
    by rewrite Hc.
  - intros [caps H]. pose proof H as (lbl & after & Hlbl & ->)%matchHere_Some.
    rewrite matchHere_token in H by done. injection H as _ Hrest.
    exists lbl, (takeWhile isWhiteSpace after), (dropWhile isWhiteSpace after).
    split; [done |]. split; [apply takeWhile_Forall |]. split.
    + rewrite <- (takeWhile_dropWhile notLineTerminator (dropWhile _ after)).
      rewrite Hrest, app_nil_r.
      eapply Forall_impl; [apply takeWhile_Forall |]. intros c.
      unfold notLineTerminator. by destruct (isLineTerminator c).
    + by rewrite takeWhile_dropWhile.
Qed.

(** The fuel of the loop is enough: with any larger amount the loop
    returns the same triples. *)
Lemma matchLoop_fuel fuel1 fuel2 line from :
  (length line < fuel1 + from)%nat → (length line < fuel2 + from)%nat →
  matchLoop fuel1 line from = matchLoop fuel2 line from.
Proof.
  assert (∀ fuel from', (length line < from')%nat → matchLoop fuel line from' = []) as Hout.
  { intros [|fuel] from' H; [done |]. simpl. unfold exec.
    by rewrite bool_decide_eq_true_2. }
  revert fuel2 from. induction fuel1 as [|fuel1 IH]; intros fuel2 from H1 H2.
  { rewrite !Hout by lia. done. }
  destruct fuel2 as [|fuel2]; [rewrite !Hout by lia; done |].
  simpl. destruct (exec line from) as [m |] eqn:Hm; [| done]. f_equal.
  apply exec_Some in Hm as (Hfrom & _ & lbl & after & _ & _ & _ & _ & _ & Hend).
  rewrite token_length in Hend. apply IH; lia.
Qed.

Lemma matchLoop_columns fuel line from :
  Forall (λ col, (from ≤ col)%nat ∧ occursAt line col) (matchLoop fuel line from).*2
  ∧ StronglySorted lt (matchLoop fuel line from).*2.
Proof.
  revert from. induction fuel as [|fuel IH]; intros from; simpl.
  { split; constructor. }
  destruct (exec line from) as [m |] eqn:Hm; [| split; constructor].
  apply exec_Some in Hm as (Hfrom & _ & lbl & after & Hlbl & Hd & _ & _ & _ & Hend).
  rewrite token_length in Hend.
  destruct (IH (endIndex m)) as [Hall Hsorted]. rewrite fmap_cons. simpl. split.
  - constructor; [split; [done | by exists lbl, after] |].
    eapply Forall_impl; [exact Hall |]. intros col [? ?]. split; [lia | done].
  - constructor; [done |].
    eapply Forall_impl; [exact Hall |]. intros col [? _]. lia.
Qed.

Lemma matchLoop_nil fuel line from :
  matchLoop (S fuel) line from = [] ↔ ∀ col, (from ≤ col)%nat → ¬ occursAt line col.
Proof. simpl. rewrite <- exec_None. by destruct (exec line from). Qed.

(** [exec] at the leftmost occurrence at or after [lastIndex]. *)
Lemma exec_leftmost line pre lbl rest from :
  line = pre ++ token lbl ++ rest → isLabel lbl →
  (from ≤ length pre)%nat →
  (∀ col, (from ≤ col < length pre)%nat → ¬ occursAt line col) →
  ∃ m, exec line from = Some m
    ∧ index m = length pre ∧ group1 m = lbl
    ∧ group2 m = takeWhile notLineTerminator (dropWhile isWhiteSpace rest)
    ∧ drop (endIndex m) line = dropWhile notLineTerminator (dropWhile isWhiteSpace rest)
    ∧ (length pre < endIndex m ≤ length line)%nat.
Proof.
  intros Hline Hlbl Hfrom Hnone.
  assert (drop (length pre) line = token lbl ++ rest) as Hhere
    by (by rewrite Hline, drop_app_length).
  assert (occursAt line (length pre)) as Hocc by (by exists lbl, rest).
  destruct (exec line from) as [m |] eqn:Hm.
  2:{ by destruct (proj1 (exec_None line from) Hm (length pre)). }
  exists m. split; [done |].
  apply exec_Some in Hm
    as (Hfrom' & Hfirst & lbl' & after & Hlbl' & Hd & Hg1 & Hg2 & Hrest & Hend).
  rewrite token_length in Hend.
  assert (index m = length pre) as Hi.
  { destruct (decide (index m < length pre)%nat) as [Hlt | Hge].
    - destruct (Hnone (index m)); [lia | by exists lbl', after].
    - destruct (decide (length pre < index m)%nat) as [Hgt |]; [| lia].
      by destruct (Hfirst (length pre)). }
  rewrite Hi, Hhere in Hd. apply token_inj in Hd as [-> ->]; [| done..].
  split; [done |]. split; [done |]. split; [done |]. split; [done |]. lia.
Qed.

Lemma exec_end line from : (length line ≤ from)%nat → exec line from = None.
Proof. intros H. apply exec_None. intros col Hcol Hocc%occursAt_lt. lia. Qed.

(** On a line without line terminator the first match runs to the end
    of the line. *)
Lemma exec_whole_line line from m :
  Forall (λ c, isLineTerminator c = false) line →
  exec line from = Some m → endIndex m = length line.
Proof.
  intros Hline (_ & _ & lbl & after & _ & Hd & _ & _ & Hrest & Hend)%exec_Some.
  assert (Forall (λ c, notLineTerminator c = true) after) as Hafter.
  { apply (Forall_drop _ (index m)) in Hline. rewrite Hd in Hline.
    apply Forall_app in Hline as [_ Hline].
    eapply Forall_impl; [exact Hline |]. intros c Hc. unfold notLineTerminator.
    by rewrite Hc. }
  rewrite dropWhile_all in Hrest by (by apply dropWhile_Forall).
  apply drop_nil_inv in Hrest. lia.
Qed.

Lemma matchLoop_one fuel line from :
  Forall (λ c, isLineTerminator c = false) line →
  (length (matchLoop fuel line from) ≤ 1)%nat.
Proof.
  intros Hline. destruct fuel as [|fuel]; simpl; [lia |].
  destruct (exec line from) as [m |] eqn:Hm; simpl; [| lia].
  apply exec_whole_line in Hm; [| done]. rewrite Hm.
  destruct fuel as [|fuel]; simpl; [lia |]. by rewrite exec_end.
Qed.

(** The triples of a line that is nothing but text before its leftmost
    token, and no line terminator after it. *)
Lemma matchLoop_leftmost fuel line pre lbl rest :
  line = pre ++ token lbl ++ rest → isLabel lbl →
  (∀ col, (col < length pre)%nat → ¬ occursAt line col) →
  ∃ text more,
    matchLoop (S fuel) line 0 = (of_chars (trim lbl), text, length pre) :: more
    ∧ (Forall (λ c, isLineTerminator c = false) rest →
         text = of_chars (trim rest) ∧ (more = [] ∨ fuel = 0%nat)).
Proof.
  intros Hline Hlbl Hnone.
  destruct (exec_leftmost line pre lbl rest 0 Hline Hlbl) as
    (m & Hm & Hi & Hg1 & Hg2 & Hrest & Hend); [lia | intros; apply Hnone; lia |].
  simpl. rewrite Hm, Hi, Hg1, Hg2. eexists _, _. split; [done |].
  intros Hnolt.
  assert (Forall (λ c, notLineTerminator c = true) rest) as Hrest'.
  { eapply Forall_impl; [exact Hnolt |]. intros c Hc. unfold notLineTerminator.
    by rewrite Hc. }
  split.
  - rewrite takeWhile_all by (by apply dropWhile_Forall). by rewrite trim_dropWhile.
  - destruct fuel as [|fuel]; [by right | left]. simpl.
    rewrite dropWhile_all in Hrest by (by apply dropWhile_Forall).
    apply drop_nil_inv in Hrest. by rewrite exec_end.
Qed.

Lemma matchLoop_head fuel line from col :
  (from ≤ col)%nat → occursAt line col →
  ∃ first more, matchLoop (S fuel) line from = first :: more ∧ (first.2 ≤ col)%nat.
Proof.
  intros Hfrom Hocc. simpl. destruct (exec line from) as [m |] eqn:Hm.
  2:{ by destruct (proj1 (exec_None line from) Hm col). }
  eexists _, _. split; [done |]. simpl.
  apply exec_Some in Hm as (_ & Hfirst & _).
  destruct (decide (col < index m)%nat) as [Hlt |]; [| lia].
  by destruct (Hfirst col).
Qed.

Lemma lineTerminator_whiteSpace c : isLineTerminator c = true → isWhiteSpace c = true.
Proof. by destruct c as [[] [] [] [] [] [] [] []]. Qed.

(** What the pattern takes after the token of an occurrence: its white
    space and its text, up to what follows the occurrence. *)
Lemma occurrenceIn_spans line o :
  occurrenceIn line o →
  ∃ rest,
    drop (occColumn o) line = token (occLabel o) ++ (occSpace o ++ occText o ++ rest)
    ∧ takeWhile notLineTerminator (dropWhile isWhiteSpace (occSpace o ++ occText o ++ rest))
      = occText o
    ∧ dropWhile notLineTerminator (dropWhile isWhiteSpace (occSpace o ++ occText o ++ rest))
      = rest
    ∧ drop (occEnd o) line = rest
    ∧ (occEnd o ≤ length line)%nat.
Proof.
  intros (Hlbl & Hws & Htxt & rest & Hd & Hhead & Hrest). exists rest.
  assert (Forall (λ c, notLineTerminator c = true) (occText o)) as Htxt'.
  { eapply Forall_impl; [exact Htxt |]. intros c Hc. unfold notLineTerminator.
    by rewrite Hc. }
  assert (dropWhile isWhiteSpace (occSpace o ++ occText o ++ rest) = occText o ++ rest)
    as Hskip.
  { rewrite dropWhile_app by done.
    destruct (occText o ++ rest) as [|c s] eqn:Hs; [done |].
    simpl. by rewrite (Hhead c). }
  assert (takeWhile notLineTerminator rest = [] ∧ dropWhile notLineTerminator rest = rest)
    as [Htake Hdrop].
  { destruct rest as [|c rest]; [done |]. simpl. unfold notLineTerminator.
    by rewrite (Hrest c). }
  unfold occSegment in Hd. rewrite <- !app_assoc in Hd.
  split; [done |]. rewrite Hskip. split; [| split; [| split]].
  - by rewrite takeWhile_app, Htake, app_nil_r.
  - by rewrite dropWhile_app.
  - unfold occEnd. rewrite <- drop_drop, Hd. unfold occSegment.
    rewrite !app_assoc, <- (app_assoc (token _)). apply drop_app_length.
  - assert (length (drop (occColumn o) line)
            = length (token (occLabel o) ++ occSpace o ++ occText o ++ rest)) as Hlen
      by (by rewrite Hd).
    rewrite length_drop in Hlen. unfold occEnd, occSegment.
    rewrite !length_app in *. rewrite !token_length in *.
    destruct Hlbl as [Hne _]. destruct (occLabel o); [done |]. simpl in *. lia.
Qed.

Lemma occurrenceIn_occursAt line o : occurrenceIn line o → occursAt line (occColumn o).
Proof.
  intros Ho. pose proof Ho as (rest & Hd & _)%occurrenceIn_spans.
  destruct Ho as (Hlbl & _). by eexists _, _.
Qed.

(** The loop over a line whose tokens, from [lastIndex] on, are held
    by the occurrences [occs]. *)
Lemma matchLoop_occurrences fuel line from occs :
  (length line < fuel + from)%nat →
  Forall (occurrenceIn line) occs →
  StronglySorted (λ a b, (occEnd a ≤ occColumn b)%nat) occs →
  Forall (λ o, (from ≤ occColumn o)%nat) occs →
  (∀ col, (from ≤ col)%nat → occursAt line col →
     ∃ o, o ∈ occs ∧ (occColumn o ≤ col < occEnd o)%nat) →
  matchLoop fuel line from = tripleOf <$> occs.
Proof.
  revert from occs. induction fuel as [|fuel IH]; intros from occs Hfuel Hin Hsorted Hfrom Hcover.
  { destruct occs as [|o occs]; [done |].
    apply Forall_cons in Hin as [Ho%occurrenceIn_occursAt%occursAt_lt _].
    apply Forall_cons in Hfrom as [Hfrom _]. lia. }
  destruct occs as [|o occs].
  { apply matchLoop_nil. intros col Hcol Hocc.
    destruct (Hcover col Hcol Hocc) as (o & []%elem_of_nil & _). }
  apply Forall_cons in Hin as [Ho Hin]. apply Forall_cons in Hfrom as [Hfrom Hfrom'].
  apply StronglySorted_inv in Hsorted as [Hsorted Hafter].
  pose proof Ho as (rest & Hd & Htext & Hrest & Hend & Hlen)%occurrenceIn_spans.
  pose proof Ho as (Hlbl & _).
  assert (length (occSegment o) ≥ 8)%nat as Hseg.
  { unfold occSegment. rewrite length_app, token_length. destruct Hlbl as [Hne _].
    destruct (occLabel o); [done |]. simpl. lia. }
  destruct (exec_leftmost line (take (occColumn o) line) (occLabel o)
              (occSpace o ++ occText o ++ rest) from)
    as (m & Hm & Hi & Hg1 & Hg2 & Hrest' & Hend').
  - by rewrite <- Hd, take_drop.
  - done.
  - rewrite length_take. unfold occEnd in Hlen. lia.
  - intros col Hcol Hocc. rewrite length_take in Hcol.
    destruct (Hcover col) as (o' & Ho' & Hrange); [lia | done |].
    apply elem_of_cons in Ho' as [-> | Ho']; [lia |].
    apply (proj1 (Forall_forall _ _) Hafter) in Ho'. unfold occEnd in *. lia.
  - rewrite length_take in Hi.
    assert (index m = occColumn o) as Hi' by (unfold occEnd in Hlen; lia).
    assert (endIndex m = occEnd o) as He.
    { rewrite Hrest in Hrest'. rewrite <- Hend in Hrest'.
      assert (length (drop (endIndex m) line) = length (drop (occEnd o) line)) as Hl
        by (by rewrite Hrest').
      rewrite !length_drop in Hl. lia. }
    cbn [matchLoop]. rewrite Hm, Hi', Hg1, Hg2, Htext, He. rewrite fmap_cons.
    f_equal. apply IH; try done.
    + unfold occEnd. lia.
    + intros col Hcol Hocc. destruct (Hcover col) as (o' & Ho' & Hrange);
        [unfold occEnd in *; lia | done |].
      apply elem_of_cons in Ho' as [-> | Ho']; [lia |]. eauto.
Qed.

(** Every line has its occurrences. *)
Lemma occurrences_exist fuel line from :
  (length line < fuel + from)%nat →
  ∃ occs,
    Forall (occurrenceIn line) occs
    ∧ StronglySorted (λ a b, (occEnd a ≤ occColumn b)%nat) occs
    ∧ Forall (λ o, (from ≤ occColumn o)%nat) occs
    ∧ ∀ col, (from ≤ col)%nat → occursAt line col →
        ∃ o, o ∈ occs ∧ (occColumn o ≤ col < occEnd o)%nat.
Proof.
  revert from. induction fuel as [|fuel IH]; intros from Hfuel.
  { exists []. do 3 (split; [constructor |]).
    intros col Hcol Hocc%occursAt_lt. lia. }
  destruct (exec line from) as [m |] eqn:Hm.
  2:{ exists []. do 3 (split; [constructor |]). intros col Hcol Hocc.
      by destruct (proj1 (exec_None line from) Hm col). }
  apply exec_Some in Hm
    as (Hfrom & Hfirst & lbl & after & Hlbl & Hd & _ & _ & Hrest & Hend).
  rewrite token_length in Hend.
  destruct (IH (endIndex m)) as (occs & Hin & Hsorted & Hfrom' & Hcover); [lia |].
  set (o := {| occColumn := index m; occLabel := lbl;
               occSpace := takeWhile isWhiteSpace after;
               occText := takeWhile notLineTerminator (dropWhile isWhiteSpace after) |}).
  set (rest := dropWhile notLineTerminator (dropWhile isWhiteSpace after)) in *.
  assert (after = occSpace o ++ occText o ++ rest) as Hafter.
  { simpl. by rewrite !takeWhile_dropWhile. }
  assert (occEnd o = endIndex m) as He.
  { assert (length (drop (index m) line) = length (token lbl ++ after)) as Hl1
      by (by rewrite Hd).
    assert (length (drop (endIndex m) line) = length rest) as Hl2 by (by rewrite Hrest).
    rewrite length_drop in Hl1, Hl2. rewrite Hafter, !length_app, token_length in Hl1.
    unfold occEnd, occSegment. rewrite !length_app, token_length. simpl in *. lia. }
  exists (o :: occs). split; [| split; [| split]].
  - constructor; [| done]. split; [done |]. split; [apply takeWhile_Forall |]. split.
    { eapply Forall_impl; [apply takeWhile_Forall |]. intros c.
      unfold notLineTerminator. by destruct (isLineTerminator c). }
    exists rest. split; [| split].
    + change (drop (index m) line
              = (token lbl ++ takeWhile isWhiteSpace after
                   ++ takeWhile notLineTerminator (dropWhile isWhiteSpace after)) ++ rest).
      rewrite Hd, <- !app_assoc. f_equal.
      unfold rest. by rewrite !takeWhile_dropWhile.
    + intros c. change (occText o ++ rest)
        with (takeWhile notLineTerminator (dropWhile isWhiteSpace after)
              ++ dropWhile notLineTerminator (dropWhile isWhiteSpace after)).
      rewrite takeWhile_dropWhile.
      destruct (dropWhile isWhiteSpace after) as [|d s] eqn:Hs; [done |].
      intros [= <-]. by apply dropWhile_head in Hs.
    + intros c. unfold rest.
      destruct (dropWhile notLineTerminator (dropWhile isWhiteSpace after))
        as [|d s] eqn:Hs; [done |].
      intros [= <-]. apply dropWhile_head in Hs. unfold notLineTerminator in Hs.
      by destruct (isLineTerminator d).
  - constructor; [done |]. eapply Forall_impl; [exact Hfrom' |]. intros o'. simpl.
    by rewrite He.
  - constructor; [done |]. eapply Forall_impl; [exact Hfrom' |]. intros o'. simpl. lia.
  - intros col Hcol Hocc.
    destruct (decide (col < endIndex m)%nat) as [Hlt | Hge].
    + exists o. split; [left |]. rewrite He. simpl.
      destruct (decide (col < index m)%nat) as [Hlt' |]; [| lia].
      destruct (Hfirst col); [lia | done].
    + destruct (Hcover col) as (o' & Ho' & Hrange); [lia | done |].
      exists o'. split; [by right | done].
Qed.

(** C1, as amended: the Matcher returns one triple for each occurrence
    of the whole pattern, in left-to-right order.  An occurrence is a
    token [TODO(label):], all the white space that follows it and the
    text up to the next line terminator or the end of the line; for
    every list of [k] such occurrences of a line that do not overlap
    and hold every token of the line (a token starts one of them or
    lies in its text), the result is exactly the [k] triples of these
    occurrences, each with the trimmed label, the trimmed text and the
    column of the [T]; every line has such a list.  Hence the columns
    are strictly increasing and each is the offset of the [T] of a
    token, something is found exactly when the line has a token, and
    the first triple is at the leftmost token.  On a line without line
    terminator the text of the first occurrence runs to the end of the
    line: at most one triple is returned, and when nothing but text
    without token precedes the token at column [length pre], the
    triple of that token, with the rest of the line as its text, is
    the only one. *)
Theorem matchLine_occurrences (line : string) :
  let found := matchLine line in
  (∃ occs, occurrencesOf (chars line) occs)
  ∧ (∀ occs, occurrencesOf (chars line) occs →
       found = tripleOf <$> occs ∧ length found = length occs)
  ∧ StronglySorted lt found.*2
  ∧ Forall (occursAt (chars line)) found.*2
  ∧ (found = [] ↔ ∀ col, ¬ occursAt (chars line) col)
  ∧ (∀ col, occursAt (chars line) col →
       ∃ first, head found.*2 = Some first ∧ (first ≤ col)%nat)
  ∧ (Forall (λ c, isLineTerminator c = false) (chars line) → (length found ≤ 1)%nat)
  ∧ (∀ pre lbl rest,
       chars line = pre ++ token lbl ++ rest → isLabel lbl →
       (∀ col, (col < length pre)%nat → ¬ occursAt (chars line) col) →
       Forall (λ c, isLineTerminator c = false) rest →
       found = [(of_chars (trim lbl), of_chars (trim rest), length pre)]).
Proof.
  unfold matchLine. cbn zeta. set (l := chars line). set (fuel := String.length line).
  assert (length l = fuel) as Hlen by apply chars_length.
  destruct (matchLoop_columns (S fuel) l 0) as [Hall Hsorted].
  split; [| split].
  { destruct (occurrences_exist (S fuel) l 0) as (occs & Hin & Hord & _ & Hcover); [lia |].
    exists occs. split; [done |]. split; [done |].
    intros col Hocc. apply Hcover; [lia | done]. }
  { intros occs (Hin & Hord & Hcover).
    assert (matchLoop (S fuel) l 0 = tripleOf <$> occs) as ->.
    { apply matchLoop_occurrences; try done; [lia | |].
      - apply Forall_forall. intros; lia.
      - intros col _. apply Hcover. }
    by rewrite length_fmap. }
  split; [done |]. split; [eapply Forall_impl; [exact Hall |]; by intros col [_ ?] |].
  split; [| split; [| split]].
  - rewrite matchLoop_nil. split; intros H col; [| intros _]; apply H. lia.
  - intros col Hocc.
    destruct (matchLoop_head fuel l 0 col) as (first & more & -> & Hle); [lia | done |].
    exists first.2. by rewrite fmap_cons.
  - apply matchLoop_one.
  - intros pre lbl rest Hl Hlbl Hnone Hrest.
    destruct (matchLoop_leftmost fuel l pre lbl rest Hl Hlbl Hnone)
      as (text & more & -> & Hmore).
    destruct (Hmore Hrest) as [-> [-> | Hfuel]]; [done |].
    rewrite Hl, !length_app, token_length in Hlen. lia.
Qed.

(** Two tokens on two sides of a carriage return are two occurrences,
    and two triples. *)
Example matchLine_carriage_return :
  matchLine ("TODO(a): x" +:+ String CR "TODO(b): y")
  = [("a", "x", 0%nat); ("b", "y", 11%nat)].
Proof. reflexivity. Qed.

(** Two tokens on a line without line terminator: the pattern occurs
    at columns 0 and 11, the segments of 11 and 10 code units from
    there are two occurrences that do not overlap, and the matcher
    returns one triple, whose text holds the second token. *)
Lemma matchLine_two_tokens_counterexample :
  matchLine "TODO(a): x TODO(b): y" = [("a", "x TODO(b): y", 0%nat)]
  ∧ ¬ (∀ (line : string) (occs : list (nat * nat)),
         StronglySorted (λ a b, a.1 + a.2 ≤ b.1)%nat occs →
         Forall (λ o, occurrence (take o.2 (drop o.1 (chars line)))) occs →
         (∀ col, occursAt (chars line) col → col ∈ occs.*1) →
         (matchLine line).*2 = occs.*1).
Proof.
  split; [reflexivity |]. intros H.
  specialize (H "TODO(a): x TODO(b): y" [(0, 11); (11, 10)]%nat).
  assert (isLabel ["a"%char]) as Ha by (split; [done | by repeat constructor]).
  assert (isLabel ["b"%char]) as Hb by (split; [done | by repeat constructor]).
  discriminate H.
  - repeat constructor; simpl; lia.
  - constructor; [| constructor; [| constructor]].
    + exists ["a"%char], [" "%char], (chars "x "). by repeat split; repeat constructor.
    + exists ["b"%char], [" "%char], (chars "y"). by repeat split; repeat constructor.
  - intros col [r Hr]%occursAt_matchHere.
    do 22 (destruct col as [|col];
           [first [by left | by right; left | by vm_compute in Hr] |]).
    by vm_compute in Hr.
Qed.

Example matchLine_trimmed :
  matchLine "TODO(x):text" = [("x", "text", 0%nat)]
  ∧ matchLine "TODO( x ):  text  " = [("x", "text", 0%nat)]
  ∧ matchLine "todo(x): text" = [].
Proof. by repeat split. Qed.

(** ** Labels of white space *)

Lemma whitespace_isLabel ws :
  ws ≠ [] → Forall (λ c, isWhiteSpace c = true) ws → isLabel ws.
Proof.
  intros Hne Hws. split; [done |].
  eapply Forall_impl; [exact Hws |]. apply whitespace_notRParen.
Qed.

Lemma scanLines_single uri rel ln :
  scanLines uri rel [ln]
  = (λ '(lbl, todoText, col),
       {| label := lbl; text := todoText; filePath := fsPath uri;
          relativePath := rel; line := 0; column := col |}) <$> matchLine ln.
Proof. unfold scanLines. simpl. by rewrite app_nil_r. Qed.

(** C7, as amended: when the leftmost token of a line has a label of
    one or more code units of white space, the matcher returns a triple
    for it, with the empty label, and the scanner makes a record with
    the empty label of it.  With nothing between the parentheses the
    pattern does not occur: [TODO():] is not a token. *)
Theorem whitespace_label_kept (ln : string) (pre ws rest : list ascii) :
  chars ln = pre ++ token ws ++ rest →
  ws ≠ [] → Forall (λ c, isWhiteSpace c = true) ws →
  (∀ col, (col < length pre)%nat → ¬ occursAt (chars ln) col) →
  (∃ text more, matchLine ln = (""%string, text, length pre) :: more)
  ∧ (∀ uri rel, ∃ text more,
       scanLines uri rel [ln]
       = {| label := ""; text := text; filePath := fsPath uri;
            relativePath := rel; line := 0; column := length pre |} :: more)
  ∧ (∀ before after, ¬ occursAt (before ++ chars "TODO():" ++ after) (length before)).
Proof.
  intros Hline Hne Hws Hnone.
  destruct (matchLoop_leftmost (String.length ln) (chars ln) pre ws rest Hline
              (whitespace_isLabel ws Hne Hws) Hnone) as (text & more & Hm & _).
  rewrite trim_whitespace in Hm by done.
  split; [by exists text, more |]. split.
  - intros uri rel. rewrite scanLines_single. unfold matchLine. rewrite Hm.
    rewrite fmap_cons. eauto.
  - intros before after [r Hr]%occursAt_matchHere.
    rewrite drop_app_length in Hr. by vm_compute in Hr.
Qed.

Lemma whitespace_label_kept_witness :
  ∃ text more, matchLine "// TODO( ): text" = (""%string, text, 3%nat) :: more.
Proof.
  refine (proj1 (whitespace_label_kept "// TODO( ): text"
                   (chars "// ") [" "%char] (chars " text") _ _ _ _)).
  - reflexivity.
  - discriminate.
  - repeat constructor.
  - intros col Hcol [r Hr]%occursAt_matchHere.
    destruct col as [|[|[|col]]]; [by vm_compute in Hr.. | simpl in Hcol; lia].
Defined.

(** With nothing between the parentheses no triple is returned. *)
Lemma empty_label_counterexample :
  matchLine "TODO(): text" = []
  ∧ ¬ (∀ (ln : string) (pre ws rest : list ascii),
         chars ln = pre ++ chars "TODO(" ++ ws ++ chars "):" ++ rest →
         Forall (λ c, isWhiteSpace c = true) ws →
         ∃ text col, (""%string, text, col) ∈ matchLine ln).
Proof.
  split; [reflexivity |]. intros H.
  destruct (H "TODO(): text" [] [] (chars " text")) as (text & col & Hin);
    [done | constructor |].
  vm_compute in Hin. by apply elem_of_nil in Hin.
Qed.

Example matchLine_whitespace_label :
  matchLine "TODO( ): text" = [("", "text", 0%nat)].
Proof. reflexivity. Qed.

(** The triples do not depend on the fuel of the loop, once it is the
    one [matchLine] gives. *)
Lemma matchLine_fuel (ln : string) fuel :
  (String.length ln < fuel)%nat → matchLoop fuel (chars ln) 0 = matchLine ln.
Proof.
  intros H. unfold matchLine. apply matchLoop_fuel; rewrite chars_length; lia.
Qed.

(** ** The filtering step *)

Section Filtering.
Variable toLowerCase : string → string.

Lemma startsWith_at pattern :
  startsWith pattern "@" = true → pattern = String "@" (slice1 pattern).
Proof.
  destruct pattern as [|c pattern]; simpl; [done |].
  case_bool_decide; [by subst | done].
Qed.

Lemma getFilteredTodos_empty p :
  filterPattern p = "" → getFilteredTodos toLowerCase p = todos p.
Proof. intros H. unfold getFilteredTodos. by rewrite H. Qed.

Lemma getFilteredTodos_label p :
  startsWith (filterPattern p) "@" = true →
  getFilteredTodos toLowerCase p
  = filter (λ todo, label todo = slice1 (filterPattern p)) (todos p).
Proof.
  intros H. unfold getFilteredTodos. rewrite H.
  case_bool_decide as He; [| done]. by rewrite He in H.
Qed.

(** Whatever the pattern, the filtered records are records of the
    index, in the order of the index. *)
Lemma getFilteredTodos_sublist p :
  getFilteredTodos toLowerCase p `sublist_of` todos p.
Proof.
  unfold getFilteredTodos. case_bool_decide; [done |].
  destruct (startsWith _ _); apply sublist_filter.
Qed.

End Filtering.

(** C3: with a filter pattern that begins with [@] the filtering step
    keeps exactly the records whose label is equal, as a string, to the
    rest of the pattern, in the order of the index; neither the fuzzy
    matcher nor the host's lower-casing takes part.  A record labelled
    [bug-123] is never selected by [@bug]. *)
Theorem exact_label_filter (toLowerCase : string → string) (p : TodoTreeProvider) :
  startsWith (filterPattern p) "@" = true →
  getFilteredTodos toLowerCase p
    = filter (λ todo, label todo = slice1 (filterPattern p)) (todos p)
  ∧ (∀ todo, todo ∈ getFilteredTodos toLowerCase p ↔
       todo ∈ todos p ∧ String "@" (label todo) = filterPattern p)
  ∧ (filterPattern p = "@bug" →
       ∀ todo, todo ∈ getFilteredTodos toLowerCase p →
         label todo = "bug" ∧ label todo ≠ "bug-123").
Proof.
  intros H. pose proof (startsWith_at _ H) as Hp.
  rewrite getFilteredTodos_label by done. split; [done |]. split.
  - intros todo. rewrite list_elem_of_filter. split.
    + intros [Hl Hin]. split; [done |]. by rewrite Hl, <- Hp.
    + intros [Hin Hl]. split; [| done]. by rewrite <- Hl.
  - intros Hbug todo. rewrite list_elem_of_filter, Hbug. simpl.
    by intros [-> _].
Qed.

Lemma exact_label_filter_witness :
  getFilteredTodos asciiToLowerCase scopedToBug
  = filter (λ todo, label todo = "bug") (todos scopedToBug).
Proof.
  refine (proj1 (exact_label_filter asciiToLowerCase scopedToBug _)). reflexivity.
Defined.

Example scopedToBug_labels :
  label <$> todos scopedToBug = ["bug"; "bug-123"]
  ∧ label <$> getFilteredTodos asciiToLowerCase scopedToBug = ["bug"].
Proof. by split. Qed.

(** C6: with the empty filter pattern the filtering step is the
    identity on the index; in particular the records of a scan come
    back as they were produced, in the same order. *)
Theorem empty_filter_identity (toLowerCase : string → string)
    (p : TodoTreeProvider) (uri : Uri) :
  getFilteredTodos toLowerCase (setFilter "" p) = todos p
  ∧ getFilteredTodos toLowerCase (setFilter "" (setTodos (scanFile uri) p))
    = scanFile uri.
Proof. split; reflexivity. Qed.

(** ** The view mode *)

(** The index read from [modes] is in range. *)
Lemma toggleViewMode_in_range m :
  is_Some (modes !! Z.to_nat (Z.rem (indexOf modes m + 1) (Z.of_nat (length modes)))).
Proof. by destruct m; eexists. Qed.

Lemma toggleViewMode_mode p :
  viewMode (toggleViewMode p).2
  = match viewMode p with grouped => byTag | byTag => flat | flat => grouped end.
Proof. by destruct p as [? [] ?]. Qed.

(** C9: [toggleViewMode] steps the view mode along
    grouped, byTag, flat, grouped, touches neither the index nor the
    filter, reports the label of the mode it arrives at, and three
    calls in a row bring the provider back to where it was. *)
Theorem toggleViewMode_cycle (p : TodoTreeProvider) :
  let step p := (toggleViewMode p).2 in
  viewMode (step p)
    = match viewMode p with grouped => byTag | byTag => flat | flat => grouped end
  ∧ todos (step p) = todos p
  ∧ filterPattern (step p) = filterPattern p
  ∧ (toggleViewMode p).1 = VIEW_MODE_LABELS (viewMode (step p))
  ∧ step (step (step p)) = p.
Proof. by destruct p as [? [] ?]. Qed.

(** ** The insertion-ordered map *)

Section JsMapFacts.
Context {V : Type}.
Implicit Types (m : JsMap V) (k : string) (v : V).

Lemma mapGet_mapSet_eq k v m : mapGet k (mapSet k v m) = Some v.
Proof.
  induction m as [|[k' v'] m IH]; simpl.
  - by rewrite bool_decide_eq_true_2.
  - case_bool_decide as Hk; simpl.
    + by rewrite bool_decide_eq_true_2.
    + by rewrite bool_decide_eq_false_2.
Qed.

Lemma mapGet_mapSet_ne k k' v m : k ≠ k' → mapGet k' (mapSet k v m) = mapGet k' m.
Proof.
  intros Hne. induction m as [|[k0 v0] m IH]; simpl.
  - by rewrite bool_decide_eq_false_2.
  - case_bool_decide as Hk; simpl; [subst k0 | by rewrite IH].
    by rewrite bool_decide_eq_false_2.
Qed.

Lemma mapGet_None k m : mapGet k m = None ↔ k ∉ mapKeys m.
Proof.
  unfold mapKeys. induction m as [|[k' v'] m IH]; simpl.
  - split; [intros _; apply not_elem_of_nil | done].
  - rewrite not_elem_of_cons. case_bool_decide; [| by rewrite IH; intuition].
    split; [done | intros [? _]; congruence].
Qed.

Lemma mapKeys_mapSet_old k v m : k ∈ mapKeys m → mapKeys (mapSet k v m) = mapKeys m.
Proof.
  unfold mapKeys. induction m as [|[k' v'] m IH]; simpl.
  - by intros ?%elem_of_nil.
  - intros Hin. case_bool_decide as Hk; simpl; [done |]. f_equal. apply IH.
    apply elem_of_cons in Hin as [-> | Hin]; done.
Qed.

Lemma mapKeys_mapSet_new k v m : k ∉ mapKeys m → mapKeys (mapSet k v m) = mapKeys m ++ [k].
Proof.
  unfold mapKeys. induction m as [|[k' v'] m IH]; simpl; [done |].
  rewrite not_elem_of_cons. intros [Hne Hin].
  rewrite bool_decide_eq_false_2 by done. simpl. f_equal. by apply IH.
Qed.

End JsMapFacts.

(** ** Grouping *)

Section Grouping.
Variable key : TodoItem → string.
Implicit Types (ts : list TodoItem) (t : TodoItem) (k : string).

Lemma groupBy_snoc ts t :
  groupBy key (ts ++ [t])
  = mapSet (key t) (default [] (mapGet (key t) (groupBy key ts)) ++ [t]) (groupBy key ts).
Proof. unfold groupBy. by rewrite foldl_snoc. Qed.

Lemma filter_key_nil ts k : k ∉ key <$> ts → filter (λ t, key t = k) ts = [].
Proof.
  induction ts as [|t ts IH]; simpl; [done |].
  rewrite not_elem_of_cons. intros [Hne Hin].
  rewrite filter_cons_False by done. by apply IH.
Qed.

(** The keys of the grouping are the keys of the items, each once, and
    every key maps to the items that carry it, in their order. *)
Lemma groupBy_spec ts :
  NoDup (mapKeys (groupBy key ts))
  ∧ (∀ k, k ∈ mapKeys (groupBy key ts) ↔ k ∈ key <$> ts)
  ∧ (∀ k, k ∈ key <$> ts →
       mapGet k (groupBy key ts) = Some (filter (λ t, key t = k) ts)).
Proof.
  induction ts as [|t ts (Hnd & Hkeys & Hget)] using rev_ind.
  - split; [constructor |]. split; [done |]. by intros k ?%elem_of_nil.
  - rewrite groupBy_snoc. set (m := groupBy key ts) in *.
    destruct (decide (key t ∈ mapKeys m)) as [Hin | Hnin].
    + rewrite mapKeys_mapSet_old by done. split; [done |]. split.
      * intros k. rewrite fmap_snoc, elem_of_app, list_elem_of_singleton, Hkeys.
        split; [by left |]. intros [? | ->]; [done | by apply Hkeys].
      * intros k Hk. rewrite filter_app.
        destruct (decide (key t = k)) as [<- | Hne].
        -- rewrite mapGet_mapSet_eq, Hget by (by apply Hkeys). simpl.
           by rewrite filter_cons_True.
        -- rewrite mapGet_mapSet_ne by done.
           rewrite fmap_snoc, elem_of_app, list_elem_of_singleton in Hk.
           destruct Hk as [Hk | ->]; [| done]. rewrite Hget by done.
           rewrite filter_cons_False by done. by rewrite app_nil_r.
    + rewrite mapKeys_mapSet_new by done. split.
      { apply NoDup_app. split; [done |]. split; [| apply NoDup_singleton].
        intros k Hk ->%list_elem_of_singleton. done. }
      split.
      * intros k. rewrite fmap_snoc, !elem_of_app, !list_elem_of_singleton, Hkeys. done.
      * intros k Hk. rewrite filter_app.
        destruct (decide (key t = k)) as [<- | Hne].
        -- rewrite mapGet_mapSet_eq.
           assert (mapGet (key t) m = None) as -> by (by apply mapGet_None).
           simpl. rewrite filter_cons_True by done.
           rewrite filter_key_nil; [done |]. by rewrite <- Hkeys.
        -- rewrite mapGet_mapSet_ne by done.
           rewrite fmap_snoc, elem_of_app, list_elem_of_singleton in Hk.
           destruct Hk as [Hk | ->]; [| done]. rewrite Hget by done.
           rewrite filter_cons_False by done. by rewrite app_nil_r.
Qed.

(** Counting the items key by key over a duplicate-free list of keys
    that covers them counts every item once. *)
Lemma sum_counts ts (ks : list string) :
  NoDup ks → (∀ t, t ∈ ts → key t ∈ ks) →
  sum_list ((λ k, length (filter (λ t, key t = k) ts)) <$> ks) = length ts.
Proof.
  intros Hnd. induction ts as [|t ts IH]; intros Hcov.
  - clear. induction ks as [|k ks IHk]; simpl in *; [done | exact IHk].
  - simpl. rewrite <- IH by (intros; apply Hcov; by right).
    assert (key t ∈ ks) as Hin by (apply Hcov; by left).
    clear IH Hcov. induction ks as [|k ks IHk]; [by apply elem_of_nil in Hin |].
    apply NoDup_cons in Hnd as [Hk Hnd]. simpl.
    destruct (decide (key t = k)) as [<- | Hne].
    + rewrite filter_cons_True by done. simpl. do 2 f_equal.
      clear IHk Hin Hnd. induction ks as [|k' ks IHk]; simpl; [done |].
      apply not_elem_of_cons in Hk as [Hne Hk].
      rewrite filter_cons_False by done. by rewrite IHk.
    + rewrite filter_cons_False by done.
      apply elem_of_cons in Hin as [? | Hin]; [done |].
      rewrite <- Nat.add_succ_r. f_equal. exact (IHk Hnd Hin).
Qed.

End Grouping.

(** ** Sorting *)

Section Sorting.
Context {A : Type} (cmp : A → A → Z).
Implicit Types (l : list A) (x y : A).

Lemma insertBy_Permutation x l : insertBy cmp x l ≡ₚ x :: l.
Proof.
  induction l as [|y l IH]; simpl; [done |].
  case_bool_decide; [done |]. by rewrite IH, Permutation_swap.
Qed.

Lemma sortBy_Permutation l : sortBy cmp l ≡ₚ l.
Proof.
  induction l as [|x l IH]; simpl; [done |].
  by rewrite insertBy_Permutation, IH.
Qed.

Lemma elem_of_sortBy l x : x ∈ sortBy cmp l ↔ x ∈ l.
Proof. by rewrite sortBy_Permutation. Qed.

(** Two elements that are in order stay as they are. *)
Lemma sortBy_ordered_pair x y : cmp x y ≤ 0 → sortBy cmp [x; y] = [x; y].
Proof. intros H. simpl. by rewrite bool_decide_eq_true_2. Qed.

(** The sort is stable: the elements of a class whose members do not
    compare greater than one another keep their order. *)
Lemma insertBy_stable (P : A → Prop) `{!∀ x, Decision (P x)} x l :
  (∀ y, P x → P y → cmp x y ≤ 0) →
  filter P (insertBy cmp x l) = filter P (x :: l).
Proof.
  intros HP. induction l as [|y l IH]; simpl; [done |].
  case_bool_decide as Hxy; [done |].
  rewrite !filter_cons, IH, filter_cons.
  destruct (decide (P y)) as [Hy |], (decide (P x)) as [Hx |]; try done.
  destruct Hxy. by apply HP.
Qed.

Lemma sortBy_stable (P : A → Prop) `{!∀ x, Decision (P x)} l :
  (∀ x y, P x → P y → cmp x y ≤ 0) →
  filter P (sortBy cmp l) = filter P l.
Proof.
  intros HP. induction l as [|x l IH]; simpl; [done |].
  rewrite insertBy_stable by (intros; by apply HP).
  by rewrite !filter_cons, IH.
Qed.

(** A compare function that is total and transitive sorts. *)
Lemma insertBy_sorted x l :
  (∀ a b, cmp a b ≤ 0 ∨ cmp b a ≤ 0) →
  (∀ a b c, cmp a b ≤ 0 → cmp b c ≤ 0 → cmp a c ≤ 0) →
  StronglySorted (cmpLe cmp) l → StronglySorted (cmpLe cmp) (insertBy cmp x l).
Proof.
  intros Htotal Htrans. induction 1 as [|y l Hl IH Hy]; simpl.
  { by repeat constructor. }
  case_bool_decide as Hxy.
  - constructor; [by constructor |]. constructor; [done |].
    eapply Forall_impl; [exact Hy |]. intros z Hz. by apply (Htrans x y z).
  - constructor; [done |]. rewrite insertBy_Permutation. constructor; [| done].
    unfold cmpLe. by destruct (Htotal x y).
Qed.

Lemma sortBy_sorted l :
  (∀ a b, cmp a b ≤ 0 ∨ cmp b a ≤ 0) →
  (∀ a b c, cmp a b ≤ 0 → cmp b c ≤ 0 → cmp a c ≤ 0) →
  StronglySorted (cmpLe cmp) (sortBy cmp l).
Proof.
  intros Htotal Htrans. induction l as [|x l IH]; simpl; [constructor |].
  by apply insertBy_sorted.
Qed.

End Sorting.

(** ** The nodes of a grouping *)

Section Groups.
Variable localeCompare : string → string → Z.
Variable key : TodoItem → string.

Lemma sortedCounts_keys m :
  (sortedCounts localeCompare m).*1 = sortBy localeCompare (mapKeys m).
Proof.
  unfold sortedCounts. rewrite <- list_fmap_compose.
  rewrite <- (list_fmap_id (sortBy _ _)) at 2. by apply list_fmap_ext.
Qed.

Lemma sortedCounts_groupBy ts :
  let groups := sortedCounts localeCompare (groupBy key ts) in
  groups.*1 = sortBy localeCompare (mapKeys (groupBy key ts))
  ∧ NoDup groups.*1
  ∧ (∀ k, k ∈ groups.*1 ↔ k ∈ key <$> ts)
  ∧ Forall (λ g, g.2 = length (filter (λ t, key t = g.1) ts)) groups
  ∧ sum_list groups.*2 = length ts.
Proof.
  destruct (groupBy_spec key ts) as (Hnd & Hkeys & Hget). simpl.
  pose proof (sortBy_Permutation localeCompare (mapKeys (groupBy key ts))) as Hperm.
  assert (∀ k, k ∈ sortBy localeCompare (mapKeys (groupBy key ts)) ↔ k ∈ key <$> ts) as Hin
    by (intros k; by rewrite Hperm).
  assert (sortedCounts localeCompare (groupBy key ts)
          = (λ k, (k, length (filter (λ t, key t = k) ts)))
              <$> sortBy localeCompare (mapKeys (groupBy key ts))) as Hcounts.
  { unfold sortedCounts. apply Forall_fmap_ext, Forall_forall. intros k Hk.
    by rewrite Hget by (by apply Hin). }
  rewrite sortedCounts_keys. split; [done |]. split; [by rewrite Hperm |].
  split; [done |]. split.
  - rewrite Hcounts. apply Forall_fmap, Forall_forall. by intros k _.
  - rewrite Hcounts, <- list_fmap_compose, Hperm.
    apply sum_counts; [done |]. intros t Ht. apply Hkeys.
    apply list_elem_of_fmap. eauto.
Qed.

End Groups.

(** ** The tree *)

Lemma scanned_todos :
  todos scanned =
  [ {| label := "x"; text := "fix a"; filePath := "/work/a.ts";
       relativePath := "a.ts"; line := 0; column := 3 |};
    {| label := "y"; text := "fix b"; filePath := "/work/a.ts";
       relativePath := "a.ts"; line := 1; column := 3 |};
    {| label := "x"; text := "fix c"; filePath := "/work/b.ts";
       relativePath := "b.ts"; line := 3; column := 3 |} ].
Proof. vm_compute. reflexivity. Qed.

Section Tree.
Variable toLowerCase : string → string.
Variable localeCompare : string → string → Z.

Lemma getChildren_root p :
  viewMode p ≠ flat →
  getChildren toLowerCase localeCompare p None
  = labelNode <$> sortedCounts localeCompare (groupBy label (getFilteredTodos toLowerCase p)).
Proof. intros H. unfold getChildren. by rewrite bool_decide_eq_false_2. Qed.

End Tree.

Lemma NoDup_fmap_filter_one {A B} `{EqDecision B} (f : A → B) (l : list A) (x : A) :
  NoDup (f <$> l) → x ∈ l → length (filter (λ y, f y = f x) l) = 1%nat.
Proof.
  induction l as [|y l IH]; intros Hnd Hin; [by apply elem_of_nil in Hin |].
  rewrite fmap_cons in Hnd. apply NoDup_cons in Hnd as [Hy Hnd].
  destruct (decide (f y = f x)) as [Heq | Hne].
  - rewrite filter_cons_True by done. cbn [length]. f_equal.
    assert (Forall (λ z, f z ≠ f x) l) as Hall.
    { apply Forall_forall. intros z Hz Hfz.
      apply Hy. rewrite Heq, <- Hfz. apply list_elem_of_fmap. eauto. }
    clear -Hall. induction Hall as [|z l Hz _ IHl]; [done |].
    by rewrite filter_cons_False.
  - rewrite filter_cons_False by done. apply IH; [done |].
    apply elem_of_cons in Hin as [-> | Hin]; done.
Qed.

(** C10: at the root, in grouped and in byTag mode, the label nodes
    partition the filtered records.  The root is one label node for
    each pair of a label and a count of [groups]; a node carries its
    label and displays it followed by its count in parentheses.  The
    labels of the nodes are pairwise distinct; they are the labels of
    the filtered records, no more and no less, and the label of a
    filtered record is the label of exactly one node; the count a node
    displays is the number of filtered records with its label, and the
    counts of the nodes add up to the number of filtered records. *)
Theorem label_groups_partition (toLowerCase : string → string)
    (localeCompare : string → string → Z) (p : TodoTreeProvider) :
  viewMode p ≠ flat →
  let root := getChildren toLowerCase localeCompare p None in
  let filtered := getFilteredTodos toLowerCase p in
  let count := λ l, length (filter (λ todo, label todo = l) filtered) in
  ∃ groups : list (string * nat),
    root = (λ g, TodoTreeItem.new (g.1 +:+ " (" +:+ pretty g.2 +:+ ")")
                   Expanded NodeLabel None (Some g.1) None) <$> groups
    ∧ NoDup groups.*1
    ∧ NoDup (TodoTreeItem.todoLabel <$> root)
    ∧ (∀ l, l ∈ groups.*1 ↔ l ∈ label <$> filtered)
    ∧ (∀ todo, todo ∈ filtered →
         label todo ∈ groups.*1
         ∧ length (filter (λ node, TodoTreeItem.todoLabel node = Some (label todo)) root)
           = 1%nat)
    ∧ Forall (λ g, g.2 = count g.1) groups
    ∧ sum_list groups.*2 = length filtered
    ∧ Forall (λ node, ∃ l,
                TodoTreeItem.todoLabel node = Some l
                ∧ l ∈ label <$> filtered
                ∧ TodoTreeItem.label node = l +:+ " (" +:+ pretty (count l) +:+ ")")
             root.
Proof.
  intros Hmode. cbn zeta. rewrite getChildren_root by done.
  set (ts := getFilteredTodos toLowerCase p).
  destruct (sortedCounts_groupBy localeCompare label ts) as (_ & Hnd & Hin & Hcount & Hsum).
  set (groups := sortedCounts localeCompare (groupBy label ts)) in *.
  assert (NoDup (TodoTreeItem.todoLabel <$> (labelNode <$> groups))) as Hnd'.
  { rewrite <- list_fmap_compose.
    change (NoDup (Some ∘ fst <$> groups)).
    rewrite list_fmap_compose. by apply (NoDup_fmap_2 Some). }
  exists groups. split; [done |]. split; [done |]. split; [done |]. split; [done |].
  split; [| split; [done |]; split; [done |]].
  - intros todo Ht.
    assert (label todo ∈ groups.*1) as Hl by (apply Hin, list_elem_of_fmap; eauto).
    split; [done |]. apply list_elem_of_fmap in Hl as (g & Hg & Hg').
    rewrite Hg. apply (NoDup_fmap_filter_one TodoTreeItem.todoLabel _ (labelNode g)).
    + done.
    + apply list_elem_of_fmap. eauto.
  - apply Forall_fmap, Forall_forall. intros g Hg. exists g.1.
    split; [done |]. split; [apply Hin, list_elem_of_fmap; eauto |].
    simpl. unfold countLabel. by rewrite (proj1 (Forall_forall _ _) Hcount g Hg).
Qed.

Lemma label_groups_partition_witness :
  let root := getChildren asciiToLowerCase codeUnitCompare scanned None in
  let filtered := getFilteredTodos asciiToLowerCase scanned in
  let count := λ l, length (filter (λ todo, label todo = l) filtered) in
  ∃ groups : list (string * nat),
    root = (λ g, TodoTreeItem.new (g.1 +:+ " (" +:+ pretty g.2 +:+ ")")
                   Expanded NodeLabel None (Some g.1) None) <$> groups
    ∧ NoDup groups.*1
    ∧ NoDup (TodoTreeItem.todoLabel <$> root)
    ∧ (∀ l, l ∈ groups.*1 ↔ l ∈ label <$> filtered)
    ∧ (∀ todo, todo ∈ filtered →
         label todo ∈ groups.*1
         ∧ length (filter (λ node, TodoTreeItem.todoLabel node = Some (label todo)) root)
           = 1%nat)
    ∧ Forall (λ g, g.2 = count g.1) groups
    ∧ sum_list groups.*2 = length filtered
    ∧ Forall (λ node, ∃ l,
                TodoTreeItem.todoLabel node = Some l
                ∧ l ∈ label <$> filtered
                ∧ TodoTreeItem.label node = l +:+ " (" +:+ pretty (count l) +:+ ")")
             root.
Proof.
  apply (label_groups_partition asciiToLowerCase codeUnitCompare scanned).
  vm_compute. discriminate.
Defined.

(** The code-unit comparison is a consistent compare function. *)
Lemma codeUnitCompare_le a b : codeUnitCompare a b ≤ 0 ↔ String.le a b.
Proof.
  unfold codeUnitCompare, String.le, String.leb.
  destruct (String.compare a b); simpl; split; (done || lia).
Qed.

Lemma codeUnitCompare_total a b : codeUnitCompare a b ≤ 0 ∨ codeUnitCompare b a ≤ 0.
Proof. rewrite !codeUnitCompare_le. apply (total String.le). Qed.

Lemma codeUnitCompare_trans a b c :
  codeUnitCompare a b ≤ 0 → codeUnitCompare b c ≤ 0 → codeUnitCompare a c ≤ 0.
Proof. rewrite !codeUnitCompare_le. apply transitivity. Qed.

(** C4: for a compare function that is total and transitive, the root
    in grouped and in byTag mode is one label node per distinct label
    of the filtered records, the labels sorted by the compare function,
    every node carrying the number of filtered records with its label.
    For the workspace of two files, where [x] sorts before [y] and
    [a.ts] before [b.ts], the root is [x (2)], [y (1)] in both modes and
    the children of [x] in grouped mode are the file nodes [a.ts (1)],
    [b.ts (1)]. *)
Theorem label_groups_sorted (toLowerCase : string → string)
    (localeCompare : string → string → Z)
    (compare_total : ∀ a b, localeCompare a b ≤ 0 ∨ localeCompare b a ≤ 0)
    (compare_trans : ∀ a b c,
       localeCompare a b ≤ 0 → localeCompare b c ≤ 0 → localeCompare a c ≤ 0)
    (x_before_y : localeCompare "x" "y" < 0)
    (a_before_b : localeCompare "a.ts" "b.ts" < 0) :
  let getChildren := getChildren toLowerCase localeCompare in
  (∀ p, viewMode p ≠ flat →
     ∃ groups : list (string * nat),
       getChildren p None = labelNode <$> groups
       ∧ NoDup groups.*1
       ∧ (∀ l, l ∈ groups.*1 ↔
            ∃ todo, todo ∈ getFilteredTodos toLowerCase p ∧ label todo = l)
       ∧ StronglySorted (cmpLe localeCompare) groups.*1
       ∧ Forall (λ g, g.2 = length (filter (λ todo, label todo = g.1)
                                      (getFilteredTodos toLowerCase p))) groups)
  ∧ viewMode scanned = grouped
  ∧ getChildren scanned None = [labelNode ("x", 2%nat); labelNode ("y", 1%nat)]
  ∧ getChildren (toggleViewMode scanned).2 None
    = [labelNode ("x", 2%nat); labelNode ("y", 1%nat)]
  ∧ TodoTreeItem.label <$> getChildren scanned None = ["x (2)"; "y (1)"]
  ∧ getChildren scanned (Some (labelNode ("x", 2%nat)))
    = [fileNode "x" ("a.ts", 1%nat); fileNode "x" ("b.ts", 1%nat)]
  ∧ TodoTreeItem.label <$> getChildren scanned (Some (labelNode ("x", 2%nat)))
    = ["a.ts (1)"; "b.ts (1)"].
Proof.
  intros getChildren'. subst getChildren'. split.
  { intros p Hmode. rewrite getChildren_root by done.
    set (ts := getFilteredTodos toLowerCase p).
    destruct (sortedCounts_groupBy localeCompare label ts) as (Hkeys & Hnd & Hin & Hcount & _).
    eexists. split; [done |]. split; [done |]. split; [| split; [| done]].
    - intros l. rewrite Hin, list_elem_of_fmap.
      split; [intros (t & -> & ?) | intros (t & ? & <-)]; eauto.
    - rewrite Hkeys. by apply sortBy_sorted. }
  assert (sortBy localeCompare ["x"; "y"] = ["x"; "y"]) as Hxy
    by (apply sortBy_ordered_pair; lia).
  assert (sortBy localeCompare ["a.ts"; "b.ts"] = ["a.ts"; "b.ts"]) as Hab
    by (apply sortBy_ordered_pair; lia).
  assert (getChildren toLowerCase localeCompare scanned None
          = [labelNode ("x", 2%nat); labelNode ("y", 1%nat)]) as Hroot.
  { rewrite getChildren_root by done.
    unfold getFilteredTodos. rewrite bool_decide_eq_true_2 by done.
    rewrite scanned_todos. unfold sortedCounts.
    change (mapKeys (groupBy label _)) with ["x"; "y"]. by rewrite Hxy. }
  assert (getChildren toLowerCase localeCompare scanned (Some (labelNode ("x", 2%nat)))
          = [fileNode "x" ("a.ts", 1%nat); fileNode "x" ("b.ts", 1%nat)]) as Hx.
  { unfold getChildren. simpl. unfold getFileGroups, getFilteredTodos.
    rewrite bool_decide_eq_true_2 by done.
    rewrite scanned_todos. unfold sortedCounts.
    change (mapKeys (groupBy relativePath _)) with ["a.ts"; "b.ts"]. by rewrite Hab. }
  split; [done |]. split; [done |]. split.
  { rewrite getChildren_root by done.
    unfold getFilteredTodos. rewrite bool_decide_eq_true_2 by done.
    change (todos (toggleViewMode scanned).2) with (todos scanned).
    rewrite scanned_todos. unfold sortedCounts.
    change (mapKeys (groupBy label _)) with ["x"; "y"]. by rewrite Hxy. }
  rewrite Hroot, Hx. done.
Qed.

Lemma label_groups_sorted_witness :
  codeUnitCompare "x" "y" < 0 ∧ codeUnitCompare "a.ts" "b.ts" < 0
  ∧ TodoTreeItem.label <$> getChildren asciiToLowerCase codeUnitCompare scanned None
    = ["x (2)"; "y (1)"].
Proof.
  split; [reflexivity |]. split; [reflexivity |].
  apply (label_groups_sorted asciiToLowerCase codeUnitCompare
           codeUnitCompare_total codeUnitCompare_trans); reflexivity.
Defined.

(** ** Leaves *)

Section Leaves.
Variable toLowerCase : string → string.
Variable localeCompare : string → string → Z.

Lemma getTodosForLabel_leaf ts lbl node :
  node ∈ getTodosForLabel localeCompare ts lbl →
  ∃ todo, todo ∈ ts ∧ TodoTreeItem.todoItem node = Some todo
          ∧ TodoTreeItem.label node = textOrEmpty todo.
Proof.
  unfold getTodosForLabel. intros (todo & -> & Hin)%list_elem_of_fmap.
  apply elem_of_sortBy, list_elem_of_filter in Hin as [_ Hin]. eauto.
Qed.

Lemma getTodosForFile_leaf ts lbl fileName node :
  node ∈ getTodosForFile localeCompare ts lbl fileName →
  ∃ todo, todo ∈ ts ∧ TodoTreeItem.todoItem node = Some todo
          ∧ TodoTreeItem.label node = textOrEmpty todo.
Proof.
  unfold getTodosForFile. intros (todo & -> & Hin)%list_elem_of_fmap.
  apply elem_of_sortBy, list_elem_of_filter in Hin as [_ Hin]. eauto.
Qed.

Lemma getFlatItems_leaf ts node :
  node ∈ getFlatItems localeCompare ts →
  ∃ todo, todo ∈ ts ∧ TodoTreeItem.todoItem node = Some todo
          ∧ TodoTreeItem.label node = todoDisplay todo.
Proof.
  unfold getFlatItems. intros (todo & -> & Hin)%list_elem_of_fmap.
  apply elem_of_sortBy in Hin. eauto.
Qed.

Lemma getFileGroups_nodeType ts lbl node :
  node ∈ getFileGroups localeCompare ts lbl → TodoTreeItem.nodeType node = NodeFile.
Proof. unfold getFileGroups. by intros (g & -> & _)%list_elem_of_fmap. Qed.

Lemma getLabelGroups_nodeType ts node :
  node ∈ getLabelGroups localeCompare ts → TodoTreeItem.nodeType node = NodeLabel.
Proof. unfold getLabelGroups. by intros (g & -> & _)%list_elem_of_fmap. Qed.

End Leaves.

(** C8, as amended: a leaf node stands for a filtered record.  Below a
    label node or a file node it displays the text of the record, or
    the literal [(empty)] when the text is empty; at the root, where
    leaves only appear in flat mode, it displays the composed string
    [TODO(label): text]. *)
Theorem leaf_display (toLowerCase : string → string)
    (localeCompare : string → string → Z)
    (p : TodoTreeProvider) (element : option TodoTreeItem.t) (node : TodoTreeItem.t) :
  node ∈ getChildren toLowerCase localeCompare p element →
  TodoTreeItem.nodeType node = NodeTodo →
  ∃ todo, todo ∈ getFilteredTodos toLowerCase p
    ∧ TodoTreeItem.todoItem node = Some todo
    ∧ match element with
      | None => viewMode p = flat ∧ TodoTreeItem.label node = todoDisplay todo
      | Some _ =>
          TodoTreeItem.label node = (if bool_decide (text todo = "") then "(empty)" else text todo)
      end.
Proof.
  unfold getChildren. intros Hin Hleaf. destruct element as [element |].
  - destruct (TodoTreeItem.nodeType element), (truthy (TodoTreeItem.todoLabel element)) as [lbl |];
      try (by apply elem_of_nil in Hin).
    + case_bool_decide.
      * by apply getTodosForLabel_leaf in Hin.
      * apply getFileGroups_nodeType in Hin. congruence.
    + destruct (truthy (TodoTreeItem.fileName element)) as [fileName |];
        [| by apply elem_of_nil in Hin].
      by apply getTodosForFile_leaf in Hin.
  - case_bool_decide as Hmode.
    + apply getFlatItems_leaf in Hin as (todo & ? & ? & ?). eauto.
    + apply getLabelGroups_nodeType in Hin. congruence.
Qed.

Lemma leaf_display_witness :
  let node := TodoTreeItem.new "fix a" StateNone NodeTodo
                (hd_error (todos scanned)) (Some "x") (Some "a.ts") in
  ∃ todo, todo ∈ getFilteredTodos asciiToLowerCase scanned
    ∧ TodoTreeItem.todoItem node = Some todo
    ∧ TodoTreeItem.label node
      = (if bool_decide (text todo = "") then "(empty)" else text todo).
Proof.
  intros node.
  apply (leaf_display asciiToLowerCase codeUnitCompare scanned
           (Some (fileNode "x" ("a.ts", 1%nat))) node).
  - vm_compute. left.
  - reflexivity.
Defined.

(** The statement for every view mode fails: in flat mode the leaf of
    a record with an empty text displays [TODO(x): ] and no
    placeholder (and the leaf of a record with a text displays more than
    the text). *)
Lemma leaf_display_flat_counterexample :
  (viewMode emptyBodyFlat = flat
   ∧ text <$> todos emptyBodyFlat = [""]
   ∧ TodoTreeItem.label
       <$> getChildren asciiToLowerCase codeUnitCompare emptyBodyFlat None
     = ["TODO(x): "])
  ∧ ¬ (∀ (p : TodoTreeProvider) (element : option TodoTreeItem.t) (node : TodoTreeItem.t),
         node ∈ getChildren asciiToLowerCase codeUnitCompare p element →
         TodoTreeItem.nodeType node = NodeTodo →
         ∃ todo, TodoTreeItem.todoItem node = Some todo
           ∧ TodoTreeItem.label node
             = (if bool_decide (text todo = "") then "(empty)" else text todo)).
Proof.
  split; [by repeat split |]. intros H.
  destruct (H emptyBodyFlat None
              (TodoTreeItem.new "TODO(x): " StateNone NodeTodo
                 (hd_error (todos emptyBodyFlat)) None None))
    as (todo & Hitem & Hlabel).
  - vm_compute. left.
  - reflexivity.
  - vm_compute in Hitem. injection Hitem as <-. vm_compute in Hlabel. discriminate.
Qed.

Example flat_root :
  TodoTreeItem.label <$> getChildren asciiToLowerCase codeUnitCompare scannedFlat None
  = ["TODO(x): fix a"; "TODO(x): fix c"; "TODO(y): fix b"].
Proof. reflexivity. Qed.

(** ** The single-file update *)

Lemma scanLines_filePath uri rel lines :
  Forall (λ t, filePath t = fsPath uri) (scanLines uri rel lines).
Proof.
  unfold scanLines. apply Forall_join, Forall_forall.
  intros l (i & ln & -> & _)%elem_of_lookup_imap.
  apply Forall_fmap, Forall_forall. by intros [[lbl txt] col] _.
Qed.

Lemma scanFile_filePath uri : Forall (λ t, filePath t = fsPath uri) (scanFile uri).
Proof.
  unfold scanFile. destruct (getText uri); [apply scanLines_filePath | constructor].
Qed.

Section Replace.
Implicit Types (p : TodoTreeProvider) (path : string) (found : list TodoItem).

Lemma filter_all {A} (P : A → Prop) `{!∀ x, Decision (P x)} (l : list A) :
  Forall P l → filter P l = l.
Proof.
  induction 1 as [|x l Hx _ IH]; [done |]. by rewrite filter_cons_True, IH.
Qed.

Lemma filter_none {A} (P : A → Prop) `{!∀ x, Decision (P x)} (l : list A) :
  Forall (λ x, ¬ P x) l → filter P l = [].
Proof.
  induction 1 as [|x l Hx _ IH]; [done |]. by rewrite filter_cons_False.
Qed.

Lemma setTodosForFile_other path found p :
  Forall (λ t, filePath t = path) found →
  filter (λ t, filePath t ≠ path) (todos (setTodosForFile path found p))
  = filter (λ t, filePath t ≠ path) (todos p).
Proof.
  intros Hfound. simpl. rewrite filter_app, list_filter_filter.
  rewrite (filter_none _ found), app_nil_r.
  - apply list_filter_iff. tauto.
  - eapply Forall_impl; [exact Hfound |]. simpl. tauto.
Qed.

Lemma setTodosForFile_file path found p :
  Forall (λ t, filePath t = path) found →
  filter (λ t, filePath t = path) (todos (setTodosForFile path found p)) = found.
Proof.
  intros Hfound. simpl. rewrite filter_app, list_filter_filter.
  rewrite (filter_all _ found) by done.
  rewrite (filter_none _ (todos p)); [done |].
  apply Forall_forall. tauto.
Qed.

Lemma setTodosForFile_each path other found p :
  Forall (λ t, filePath t = path) found → other ≠ path →
  filter (λ t, filePath t = other) (todos (setTodosForFile path found p))
  = filter (λ t, filePath t = other) (todos p).
Proof.
  intros Hfound Hne. simpl. rewrite filter_app, list_filter_filter.
  rewrite (filter_none _ found), app_nil_r.
  - apply list_filter_iff. intros t. split; [tauto | intros ->; done].
  - eapply Forall_impl; [exact Hfound |]. simpl. congruence.
Qed.

End Replace.

(** C5: the scan of one document replaces exactly the records of its
    file: the records of every other file are as before, in the same
    order, and the records of the file are the ones just found.  When
    nothing is found, and when the file is deleted, the records of the
    file are removed and nothing else changes.  From the index of the
    two files, two records of [a.ts] and one of [b.ts], the scan of
    [a.ts] without TODOs leaves the one record of [b.ts]. *)
Theorem scanDocument_replaces_file (p : TodoTreeProvider) (document : TextDocument) :
  let path := documentPath document in
  let found := scannerScanDocument document in
  let p' := scanDocument document p in
  (∀ other, other ≠ path →
     filter (λ t, filePath t = other) (todos p')
     = filter (λ t, filePath t = other) (todos p))
  ∧ filter (λ t, filePath t ≠ path) (todos p')
    = filter (λ t, filePath t ≠ path) (todos p)
  ∧ filter (λ t, filePath t = path) (todos p') = found
  ∧ (found = [] → todos p' = filter (λ t, filePath t ≠ path) (todos p))
  ∧ todos (onDidDeleteFiles [path] p) = filter (λ t, filePath t ≠ path) (todos p)
  ∧ viewMode p' = viewMode p ∧ filterPattern p' = filterPattern p
  ∧ (length (filter (λ t, filePath t = fsPath a_ts) (todos scanned)) = 2%nat
     ∧ length (filter (λ t, filePath t = fsPath b_ts) (todos scanned)) = 1%nat
     ∧ documentPath a_ts_done = fsPath a_ts
     ∧ scannerScanDocument a_ts_done = []
     ∧ todos (scanDocument a_ts_done scanned) = scanFile b_ts
     ∧ todos (onDidDeleteFiles [fsPath a_ts] scanned) = scanFile b_ts).
Proof.
  intros path found p'.
  assert (Forall (λ t, filePath t = path) found) as Hfound
    by apply (scanFile_filePath
               {| fsPath := path; workspaceRelative := documentRelative document;
                  getText := Some (documentText document) |}).
  split; [intros other Hne; by apply setTodosForFile_each |].
  split; [by apply setTodosForFile_other |].
  split; [by apply setTodosForFile_file |].
  split; [| split; [by rewrite <- (app_nil_r (filter _ _)) |]].
  - unfold p', scanDocument. fold found. intros ->. simpl. apply app_nil_r.
  - split; [done |]. split; [done |]. vm_compute. done.
Qed.

(** * Further properties *)

(** ** What [trim] keeps *)

Lemma chars_of_chars l : chars (of_chars l) = l.
Proof. apply list_ascii_of_string_of_list_ascii. Qed.

Lemma of_chars_chars s : of_chars (chars s) = s.
Proof. apply string_of_list_ascii_of_string. Qed.

Lemma chars_app a b : chars (a +:+ b) = chars a ++ chars b.
Proof. induction a as [|c a IH]; simpl; [done |]. by rewrite IH. Qed.

Lemma trimEnd_prefix s :
  ∃ w, s = trimEnd s ++ w ∧ Forall (λ c, isWhiteSpace c = true) w.
Proof.
  exists (reverse (takeWhile isWhiteSpace (reverse s))). split.
  - unfold trimEnd, trimStart. rewrite <- reverse_app, takeWhile_dropWhile.
    by rewrite reverse_involutive.
  - apply Forall_reverse, takeWhile_Forall.
Qed.

Lemma trimEnd_idemp s : trimEnd (trimEnd s) = trimEnd s.
Proof.
  unfold trimEnd, trimStart. by rewrite reverse_involutive, dropWhile_idemp.
Qed.

(** Stripping the end of a string that does not start with white space
    leaves a string that does not start with white space. *)
Lemma trimStart_trimEnd s : trimStart s = s → trimStart (trimEnd s) = trimEnd s.
Proof.
  intros Hs. destruct (trimEnd_prefix s) as (w & Hw & Hall).
  destruct (trimEnd s) as [|c u] eqn:Hu; [done |].
  rewrite Hw in Hs. unfold trimStart in *. simpl in *.
  destruct (isWhiteSpace c) eqn:Hc; [| done].
  pose proof (dropWhile_length isWhiteSpace (u ++ w)) as Hlen.
  rewrite Hs in Hlen. simpl in Hlen. lia.
Qed.

Lemma trim_idemp s : trim (trim s) = trim s.
Proof.
  unfold trim. rewrite trimStart_trimEnd by apply dropWhile_idemp.
  apply trimEnd_idemp.
Qed.

Lemma trim_elem s c : c ∈ trim s → c ∈ s.
Proof.
  intros Hc. rewrite <- (takeWhile_dropWhile isWhiteSpace s).
  destruct (trimEnd_prefix (trimStart s)) as (w & Hw & _).
  unfold trimStart in Hw at 1. rewrite Hw. fold (trim s).
  rewrite !elem_of_app. auto.
Qed.

(** ** The records of a file *)

(** Every triple of the loop stands for a token of the line. *)
Lemma matchLoop_elem fuel ln from lbl txt col :
  (lbl, txt, col) ∈ matchLoop fuel ln from →
  ∃ raw rest,
    isLabel raw ∧ (from ≤ col)%nat ∧ drop col ln = token raw ++ rest
    ∧ lbl = of_chars (trim raw)
    ∧ txt = of_chars (trim (takeWhile notLineTerminator (dropWhile isWhiteSpace rest))).
Proof.
  revert from. induction fuel as [|fuel IH]; intros from; simpl.
  { by intros ?%elem_of_nil. }
  destruct (exec ln from) as [m |] eqn:Hm; [| by intros ?%elem_of_nil].
  apply exec_Some in Hm as (Hfrom & _ & raw & after & Hraw & Hd & Hg1 & Hg2 & _ & Hend).
  rewrite token_length in Hend.
  intros [[= -> -> ->] | Hin]%elem_of_cons.
  - exists raw, after. by rewrite Hg1, Hg2.
  - apply IH in Hin as (raw' & rest & ? & ? & ? & ? & ?).
    exists raw', rest. split; [done |]. split; [lia | done].
Qed.

Lemma scanLines_eq uri rel lines :
  scanLines uri rel lines
  = mjoin (imap (λ i ln, recordOf uri rel i <$> matchLine ln) lines).
Proof. done. Qed.

Lemma elem_of_scanLines uri rel lines t :
  t ∈ scanLines uri rel lines ↔
  ∃ i ln tr, lines !! i = Some ln ∧ tr ∈ matchLine ln ∧ t = recordOf uri rel i tr.
Proof.
  rewrite scanLines_eq, list_elem_of_join. split.
  - intros (l & Ht & (i & ln & -> & Hi)%elem_of_lookup_imap).
    apply list_elem_of_fmap in Ht as (tr & -> & Htr). eauto 6.
  - intros (i & ln & tr & Hi & Htr & ->).
    exists (recordOf uri rel i <$> matchLine ln). split.
    + apply list_elem_of_fmap. eauto.
    + apply elem_of_lookup_imap. eauto.
Qed.

Lemma scanFile_eq uri content :
  getText uri = Some content →
  scanFile uri
  = scanLines uri (default (fsPath uri) (workspaceRelative uri))
      (of_chars <$> splitLines (chars content)).
Proof. intros H. unfold scanFile. by rewrite H. Qed.

(** X1: a record points at a token.  Every record of a file comes from
    a text that could be read, its line is a line of that text and at
    its column the line has a token [TODO(raw):]; the label of the
    record is the trimmed [raw] and its text is the trimmed run, after
    the white space that follows the token, up to the next line
    terminator. *)
Theorem scanFile_points_at_token (uri : Uri) (t : TodoItem) :
  t ∈ scanFile uri →
  ∃ content ln raw rest,
    getText uri = Some content
    ∧ splitLines (chars content) !! line t = Some ln
    ∧ isLabel raw
    ∧ drop (column t) ln = token raw ++ rest
    ∧ label t = of_chars (trim raw)
    ∧ text t = of_chars (trim (takeWhile notLineTerminator (dropWhile isWhiteSpace rest))).
Proof.
  destruct (getText uri) as [content |] eqn:Hcontent.
  2:{ unfold scanFile. rewrite Hcontent. by intros ?%elem_of_nil. }
  rewrite (scanFile_eq uri content) by done.
  intros (i & ln & [[lbl txt] col] & Hi & Htr & ->)%elem_of_scanLines.
  rewrite list_lookup_fmap in Hi.
  destruct (splitLines (chars content) !! i) as [l |] eqn:Hl; [| done].
  injection Hi as <-. unfold matchLine in Htr. rewrite chars_of_chars in Htr.
  apply matchLoop_elem in Htr as (raw & rest & ? & _ & ? & ? & ?).
  exists content, l, raw, rest. simpl. done.
Qed.

Lemma scanFile_points_at_token_witness :
  ∃ content ln raw rest,
    getText a_ts = Some content
    ∧ splitLines (chars content) !! 1%nat = Some ln
    ∧ isLabel raw
    ∧ drop 3 ln = token raw ++ rest
    ∧ "y" = of_chars (trim raw)
    ∧ "fix b" = of_chars (trim (takeWhile notLineTerminator (dropWhile isWhiteSpace rest))).
Proof.
  apply (scanFile_points_at_token a_ts
           {| label := "y"; text := "fix b"; filePath := "/work/a.ts";
              relativePath := "a.ts"; line := 1; column := 3 |}).
  vm_compute. right. left.
Defined.

Lemma StronglySorted_fmap_inv {A B} (f : A → B) (R : relation B) (l : list A) :
  StronglySorted R (f <$> l) → StronglySorted (λ a b, R (f a) (f b)) l.
Proof.
  induction l as [|x l IH]; [constructor |].
  rewrite fmap_cons, StronglySorted_cons, Forall_fmap. intros [? ?].
  constructor; [by apply IH | done].
Qed.

Lemma scanLines_sorted uri rel lines (k : nat) :
  let records := mjoin (imap (λ i ln, recordOf uri rel (k + i) <$> matchLine ln) lines) in
  StronglySorted positionLt records ∧ Forall (λ t, (k ≤ line t)%nat) records.
Proof.
  revert k. induction lines as [|ln lines IH]; intros k; simpl.
  { split; constructor. }
  rewrite (imap_ext _ (λ i ln, recordOf uri rel (S k + i) <$> matchLine ln))
    by (intros i x _; simpl; by rewrite Nat.add_succ_r).
  destruct (IH (S k)) as [Hsorted Hall]. cbn zeta in Hsorted, Hall.
  assert (Forall (λ t, line t = k) (recordOf uri rel (k + 0) <$> matchLine ln)) as Hline.
  { apply Forall_fmap, Forall_forall. intros [[lbl txt] col] _. simpl. lia. }
  split.
  - apply StronglySorted_app. split; [| split; [| done]].
    + intros t1 t2 H1 H2. left.
      rewrite Forall_forall in Hline, Hall.
      rewrite (Hline t1 H1). specialize (Hall t2 H2). lia.
    + destruct (matchLoop_columns (S (String.length ln)) (chars ln) 0) as [_ Hcols].
      apply StronglySorted_fmap_inv in Hcols. fold (matchLine ln) in Hcols.
      eapply (StronglySorted_fmap _ _ positionLt); [| exact Hcols].
      intros [[l1 t1] c1] [[l2 t2] c2] Hlt. right. simpl in *. done.
  - apply Forall_app. split.
    + eapply Forall_impl; [exact Hline |]. simpl. intros; lia.
    + eapply Forall_impl; [exact Hall |]. simpl. intros; lia.
Qed.

(** X2: the records of a file come in position order: by line, and on
    a line by column, strictly, so that no two records of a file are at
    the same position. *)
Theorem scanFile_position_order (uri : Uri) :
  StronglySorted positionLt (scanFile uri)
  ∧ NoDup ((λ t, (line t, column t)) <$> scanFile uri).
Proof.
  assert (StronglySorted positionLt (scanFile uri)) as Hsorted.
  { unfold scanFile. destruct (getText uri) as [content |]; [| constructor].
    cbn zeta. rewrite scanLines_eq.
    apply (scanLines_sorted uri _ _ 0). }
  split; [done |]. induction Hsorted as [|t l _ IH Hall]; [constructor |].
  rewrite fmap_cons. constructor; [| done].
  intros (t' & Heq & Hin)%list_elem_of_fmap.
  rewrite Forall_forall in Hall. specialize (Hall t' Hin).
  injection Heq as Hl Hc. unfold positionLt in Hall. lia.
Qed.

(** X3: what the fields of a record hold.  The record carries the path
    of its file and the path relative to the workspace folder, or the
    absolute path when there is no folder; label and text neither start
    nor end with white space; the label has no closing parenthesis and
    the text no line terminator. *)
Theorem scanFile_fields (uri : Uri) (t : TodoItem) :
  t ∈ scanFile uri →
  filePath t = fsPath uri
  ∧ relativePath t = default (fsPath uri) (workspaceRelative uri)
  ∧ trimmed (label t) ∧ trimmed (text t)
  ∧ (")"%char ∉ chars (label t))
  ∧ Forall (λ c, isLineTerminator c = false) (chars (text t)).
Proof.
  destruct (getText uri) as [content |] eqn:Hcontent.
  2:{ unfold scanFile. rewrite Hcontent. by intros ?%elem_of_nil. }
  rewrite (scanFile_eq uri content) by done.
  intros (i & ln & [[lbl txt] col] & Hi & Htr & ->)%elem_of_scanLines.
  apply matchLoop_elem in Htr as (raw & rest & [_ Hraw] & _ & _ & -> & ->).
  simpl. unfold trimmed. rewrite !chars_of_chars, !trim_idemp.
  do 4 (split; [done |]). split.
  - intros Hin%trim_elem. rewrite Forall_forall in Hraw. by apply (Hraw _ Hin).
  - apply Forall_forall. intros c Hin%trim_elem.
    pose proof (takeWhile_Forall notLineTerminator (dropWhile isWhiteSpace rest)) as Hall.
    rewrite Forall_forall in Hall. specialize (Hall c Hin).
    unfold notLineTerminator in Hall. by destruct (isLineTerminator c).
Qed.

Lemma scanFile_fields_witness :
  let t := {| label := "x"; text := "fix c"; filePath := "/work/b.ts";
              relativePath := "b.ts"; line := 3; column := 3 |} in
  filePath t = fsPath b_ts
  ∧ relativePath t = default (fsPath b_ts) (workspaceRelative b_ts)
  ∧ trimmed (label t) ∧ trimmed (text t)
  ∧ (")"%char ∉ chars (label t))
  ∧ Forall (λ c, isLineTerminator c = false) (chars (text t)).
Proof.
  intros t. apply (scanFile_fields b_ts t). vm_compute. left.
Defined.

(** X4: no line with a token is passed over.  When a line of a
    readable file has a token at some column, the file has a record on
    that line, at that column or to the left of it. *)
Theorem scanFile_finds_tokens (uri : Uri) (content : string)
    (i : nat) (ln : list ascii) (col : nat) :
  getText uri = Some content →
  splitLines (chars content) !! i = Some ln →
  occursAt ln col →
  ∃ t, t ∈ scanFile uri ∧ line t = i ∧ (column t ≤ col)%nat.
Proof.
  intros Hcontent Hi Hocc. rewrite (scanFile_eq uri content) by done.
  destruct (matchLoop_head (String.length (of_chars ln)) ln 0 col)
    as (first & more & Hm & Hle); [lia | done |].
  exists (recordOf uri (default (fsPath uri) (workspaceRelative uri)) i first).
  split; [| by destruct first as [[? ?] ?]].
  apply elem_of_scanLines. exists i, (of_chars ln), first.
  split; [by rewrite list_lookup_fmap, Hi |]. split; [| done].
  unfold matchLine. rewrite chars_of_chars, Hm. left.
Qed.

Lemma scanFile_finds_tokens_witness :
  ∃ t, t ∈ scanFile b_ts ∧ line t = 3%nat ∧ (column t ≤ 3)%nat.
Proof.
  apply (scanFile_finds_tokens b_ts
           (newline +:+ newline +:+ newline +:+ "// TODO(x): fix c")
           3 (chars "// TODO(x): fix c") 3).
  - reflexivity.
  - reflexivity.
  - exists ["x"%char], (chars " fix c"). split; [| reflexivity].
    split; [done | by repeat constructor].
Defined.

(** ** Carriage returns *)

Section Snoc.
Variable p : ascii → bool.

Lemma takeWhile_snoc_false s c : p c = false → takeWhile p (s ++ [c]) = takeWhile p s.
Proof.
  intros Hc. induction s as [|d s IH]; simpl; [by rewrite Hc |].
  destruct (p d); [by rewrite IH | done].
Qed.

Lemma dropWhile_snoc_false s c : p c = false → dropWhile p (s ++ [c]) = dropWhile p s ++ [c].
Proof.
  intros Hc. induction s as [|d s IH]; simpl; [by rewrite Hc |].
  destruct (p d); [by rewrite IH | done].
Qed.

Lemma dropWhile_snoc_ne s c : dropWhile p s ≠ [] → dropWhile p (s ++ [c]) = dropWhile p s ++ [c].
Proof.
  induction s as [|d s IH]; simpl; [done |]. destruct (p d); [exact IH | done].
Qed.

Lemma dropWhile_snoc_nil s c : dropWhile p s = [] → p c = true → dropWhile p (s ++ [c]) = [].
Proof.
  intros Hs Hc. induction s as [|d s IH]; simpl in *; [by rewrite Hc |].
  destruct (p d); [by apply IH | done].
Qed.

End Snoc.

Lemma occursAt_snoc_cr ln col : occursAt (ln ++ [CR]) col ↔ occursAt ln col.
Proof.
  split.
  - intros (raw & rest & Hraw & Hd). exists raw.
    destruct (decide (col ≤ length ln)%nat) as [Hle | Hgt].
    2:{ rewrite drop_ge in Hd by (rewrite length_app; simpl; lia).
        symmetry in Hd. by apply app_eq_nil in Hd as [? _]. }
    rewrite drop_app_le in Hd by done.
    destruct rest as [|c rest _] using rev_ind.
    + rewrite app_nil_r in Hd. unfold token in Hd.
      rewrite app_assoc in Hd. change (chars "):") with ([")"%char] ++ [":"%char]) in Hd.
      rewrite app_assoc in Hd. by apply app_inj_tail in Hd as [_ ?].
    + rewrite app_assoc in Hd. apply app_inj_tail in Hd as [Hd _]. by exists rest.
  - intros (raw & rest & Hraw & Hd). exists raw, (rest ++ [CR]). split; [done |].
    assert (col ≤ length ln)%nat as Hle.
    { destruct (decide (col ≤ length ln)%nat); [done |].
      rewrite drop_ge in Hd by lia. symmetry in Hd. by apply app_eq_nil in Hd as [? _]. }
    by rewrite drop_app_le, Hd, app_assoc.
Qed.

Lemma text_snoc_cr after :
  takeWhile notLineTerminator (dropWhile isWhiteSpace (after ++ [CR]))
  = takeWhile notLineTerminator (dropWhile isWhiteSpace after).
Proof.
  destruct (dropWhile isWhiteSpace after) as [|c d] eqn:Hd.
  - by rewrite dropWhile_snoc_nil.
  - rewrite dropWhile_snoc_ne, Hd by (by rewrite Hd).
    by rewrite takeWhile_snoc_false.
Qed.

(** A carriage return at the end of a line changes nothing of what the
    loop finds, from equal positions or from positions past the end. *)
Lemma matchLoop_snoc_cr fuel ln from from' :
  (from' = from ∨ (length ln ≤ from ∧ length ln ≤ from'))%nat →
  matchLoop fuel (ln ++ [CR]) from' = matchLoop fuel ln from.
Proof.
  revert from from'. induction fuel as [|fuel IH]; intros from from' Hpos; [done |].
  destruct Hpos as [-> | [Hge Hge']].
  2:{ simpl.
      assert (exec ln from = None) as ->.
      { apply exec_None. intros col Hcol Hocc%occursAt_lt. lia. }
      assert (exec (ln ++ [CR]) from' = None) as ->; [| done].
      apply exec_None. intros col Hcol Hocc. apply (proj1 (occursAt_snoc_cr _ _)), occursAt_lt in Hocc. lia. }
  simpl. destruct (exec ln from) as [m |] eqn:Hm.
  2:{ assert (exec (ln ++ [CR]) from = None) as ->; [| done].
      apply exec_None. intros col Hcol Hocc. apply (proj1 (occursAt_snoc_cr _ _)) in Hocc.
      by apply (proj1 (exec_None ln from) Hm col). }
  apply exec_Some in Hm
    as (Hfrom & Hfirst & raw & after & Hraw & Hd & Hg1 & Hg2 & Hrest & Hend).
  rewrite token_length in Hend.
  destruct (exec_leftmost (ln ++ [CR]) (take (index m) ln) raw (after ++ [CR]) from)
    as (m' & -> & Hi' & Hg1' & Hg2' & Hrest' & Hend').
  { rewrite <- (take_drop (index m) ln) at 1. rewrite Hd. by rewrite <- !app_assoc. }
  { done. }
  { rewrite length_take. lia. }
  { intros col Hcol Hocc. apply (proj1 (occursAt_snoc_cr _ _)) in Hocc.
    rewrite length_take in Hcol.
    apply (Hfirst col); [lia | done]. }
  rewrite length_take, Nat.min_l in Hi', Hend' by lia.
  rewrite length_app in Hend'. simpl in Hend'.
  rewrite Hi', Hg1', Hg2', Hg1, Hg2, text_snoc_cr. f_equal.
  apply IH.
  assert (length (drop (endIndex m) ln) = length ln - endIndex m)%nat as Hlen
    by apply length_drop.
  assert (length (drop (endIndex m') (ln ++ [CR])) = length ln + 1 - endIndex m')%nat
    as Hlen' by (rewrite length_drop, length_app; simpl; lia).
  rewrite Hrest in Hlen. rewrite Hrest' in Hlen'.
  destruct (decide (dropWhile isWhiteSpace after = [])) as [Hws | Hws].
  - rewrite dropWhile_snoc_nil in Hlen' by done. rewrite Hws in Hlen.
    simpl in Hlen, Hlen'. right. lia.
  - rewrite dropWhile_snoc_ne in Hlen' by done.
    rewrite dropWhile_snoc_false, length_app in Hlen' by done.
    simpl in Hlen'. left. lia.
Qed.

Lemma matchLine_snoc_cr (ln : list ascii) :
  matchLine (of_chars (ln ++ [CR])) = matchLine (of_chars ln).
Proof.
  unfold matchLine. rewrite <- !chars_length, !chars_of_chars.
  rewrite (matchLoop_snoc_cr _ ln 0 0) by (by left).
  apply matchLoop_fuel; rewrite ?length_app; simpl; lia.
Qed.

Lemma imap_Forall2 {A B} (R : A → A → Prop) (f : nat → A → B) (l' l : list A) :
  Forall2 R l' l → (∀ i a' a, R a' a → f i a' = f i a) → imap f l' = imap f l.
Proof.
  intros H. revert f. induction H as [|a' a l' l Ha _ IH]; intros f Hf; [done |].
  simpl. f_equal; [by apply Hf |]. apply IH. intros i. apply Hf.
Qed.

Lemma splitLines_carriage_returns s :
  Forall2 (λ l' l, l' = l ∨ l' = l ++ [CR])
    (splitLines (withCarriageReturns s)) (splitLines s).
Proof.
  induction s as [|c s IH]; simpl.
  { by repeat constructor. }
  case_bool_decide as Hc.
  - subst c. simpl. constructor; [by right | done].
  - simpl. rewrite bool_decide_eq_false_2 by done.
    destruct IH as [|l' l ls' ls Hl Hls].
    + constructor; [by left | constructor].
    + constructor; [| done]. destruct Hl as [-> | ->]; [by left | by right].
Qed.

(** X5: the line ends of a file do not matter.  The records of a text
    whose lines end in a carriage return and a line feed are the
    records of the text with bare line feeds: same lines, same columns,
    same labels and texts. *)
Theorem scanFile_carriage_returns (uri : Uri) (content : string) :
  getText uri = Some content →
  scanFile {| fsPath := fsPath uri;
              workspaceRelative := workspaceRelative uri;
              getText := Some (of_chars (withCarriageReturns (chars content))) |}
  = scanFile uri.
Proof.
  intros Hcontent. rewrite (scanFile_eq uri content) by done.
  unfold scanFile. cbn [getText fsPath workspaceRelative]. cbn zeta.
  rewrite chars_of_chars, !scanLines_eq, !imap_fmap. f_equal.
  eapply imap_Forall2; [apply splitLines_carriage_returns |].
  intros i l' l [-> | ->]; simpl; [done |]. by rewrite matchLine_snoc_cr.
Qed.

Lemma scanFile_carriage_returns_witness :
  scanFile {| fsPath := fsPath a_ts;
              workspaceRelative := workspaceRelative a_ts;
              getText := Some ("// TODO(x): fix a" +:+ of_chars [CR] +:+ newline
                               +:+ "// TODO(y): fix b") |}
  = scanFile a_ts.
Proof.
  apply (scanFile_carriage_returns a_ts
           ("// TODO(x): fix a" +:+ newline +:+ "// TODO(y): fix b")).
  reflexivity.
Defined.

(** ** The files of a workspace scan *)

Section WorkspaceScan.
Variable toLowerCase : string → string.

Lemma scanWorkspace_cons file files :
  scanWorkspace toLowerCase (file :: files)
  = (if isTextFile toLowerCase (fsPath file) then scanFile file else [])
    ++ scanWorkspace toLowerCase files.
Proof.
  unfold scanWorkspace. cbn zeta. rewrite filter_cons.
  destruct (decide (isTextFile toLowerCase (fsPath file) = true)) as [-> | Hno]; [done |].
  by destruct (isTextFile toLowerCase (fsPath file)).
Qed.

Lemma scanWorkspace_paths files :
  Forall (λ t, filePath t ∈ fsPath <$> files) (scanWorkspace toLowerCase files).
Proof.
  induction files as [|file files IH]; [constructor |].
  rewrite scanWorkspace_cons. apply Forall_app. split.
  - destruct (isTextFile toLowerCase (fsPath file)); [| constructor].
    eapply Forall_impl; [apply scanFile_filePath |]. simpl. intros t ->. left.
  - eapply Forall_impl; [exact IH |]. simpl. intros t Ht. by right.
Qed.

End WorkspaceScan.

(** X6: the index a workspace scan builds, read back file by file.
    When the files found have pairwise distinct paths, the records of
    the index with the path of one of them are the records of the scan
    of that file, in their order, if its name is text-like, and none
    otherwise. *)
Theorem scanWorkspace_per_file (toLowerCase : string → string)
    (files : list Uri) (file : Uri) :
  NoDup (fsPath <$> files) → file ∈ files →
  filter (λ t, filePath t = fsPath file) (scanWorkspace toLowerCase files)
  = if isTextFile toLowerCase (fsPath file) then scanFile file else [].
Proof.
  induction files as [|f files IH]; [by intros _ ?%elem_of_nil |].
  rewrite fmap_cons, NoDup_cons. intros [Hf Hnd] Hin.
  rewrite scanWorkspace_cons, filter_app.
  apply elem_of_cons in Hin as [<- | Hin].
  - rewrite (filter_none _ (scanWorkspace _ _)), app_nil_r.
    + destruct (isTextFile toLowerCase (fsPath file)); [| done].
      apply filter_all, scanFile_filePath.
    + eapply Forall_impl; [apply scanWorkspace_paths |]. simpl.
      intros t Ht Heq. by rewrite Heq in Ht.
  - rewrite IH by done. rewrite filter_none; [done |].
    assert (fsPath f ≠ fsPath file) as Hne.
    { intros Heq. apply Hf. rewrite Heq. apply list_elem_of_fmap. eauto. }
    destruct (isTextFile toLowerCase (fsPath f)); [| constructor].
    eapply Forall_impl; [apply scanFile_filePath |]. simpl. congruence.
Qed.

Lemma scanWorkspace_per_file_witness :
  filter (λ t, filePath t = fsPath b_ts) (scanWorkspace asciiToLowerCase [a_ts; b_ts])
  = if isTextFile asciiToLowerCase (fsPath b_ts) then scanFile b_ts else [].
Proof.
  apply (scanWorkspace_per_file asciiToLowerCase [a_ts; b_ts] b_ts).
  - apply (bool_decide_unpack _). vm_compute. exact I.
  - right. left.
Defined.

(** ** Text-like files *)

Lemma isPrefix_before_separator pre x sep y :
  Forall (λ c, isSeparator c = false) pre → isSeparator sep = true →
  isPrefix pre (x ++ sep :: y) = isPrefix pre x.
Proof.
  intros Hpre Hsep. revert x. induction Hpre as [|c pre Hc _ IH]; intros x; [done |].
  destruct x as [|d x]; simpl.
  - rewrite bool_decide_eq_false_2; [done |]. intros ->. congruence.
  - by rewrite IH.
Qed.

Lemma endsWith_after_separator dir sep name ext :
  Forall (λ c, isSeparator c = false) (chars ext) → isSeparator sep = true →
  isPrefix (reverse (chars ext)) (reverse (dir ++ sep :: name))
  = isPrefix (reverse (chars ext)) (reverse name).
Proof.
  intros Hext Hsep. rewrite reverse_app, reverse_cons, <- app_assoc. simpl.
  apply isPrefix_before_separator; [by apply Forall_reverse | done].
Qed.

Lemma splitPath_cons_inv s : ∃ l ls, splitPath s = l :: ls.
Proof.
  destruct s as [|c s]; simpl; [eauto |].
  destruct (isSeparator c); [eauto |]. destruct (splitPath s); eauto.
Qed.

Lemma splitPath_separator a sep b :
  isSeparator sep = true → splitPath (a ++ sep :: b) = splitPath a ++ splitPath b.
Proof.
  intros Hsep. induction a as [|c a IH]; simpl; [by rewrite Hsep |].
  rewrite IH. destruct (isSeparator c); [done |].
  by destruct (splitPath_cons_inv a) as (l & ls & ->).
Qed.

Lemma splitPath_name b : Forall (λ c, isSeparator c = false) b → splitPath b = [b].
Proof. induction 1 as [|c b Hc _ IH]; simpl; [done |]. by rewrite Hc, IH. Qed.

Lemma existsb_ext_elem {A} (f g : A → bool) (l : list A) :
  Forall (λ x, f x = g x) l → existsb f l = existsb g l.
Proof. induction 1 as [|x l Hx _ IH]; simpl; [done |]. by rewrite Hx, IH. Qed.

Lemma textExtensions_no_separator :
  Forall (λ ext, Forall (λ c, isSeparator c = false) (chars ext)) textExtensions.
Proof.
  apply (bool_decide_unpack _). vm_compute. exact I.
Qed.

(** X7: whether a file is scanned depends on its name only, not on the
    directories of its path.  For a host that lowers strings code unit
    by code unit and neither makes nor unmakes a separator,
    [isTextFile] gives a path that ends in a separator and a name the
    answer it gives the name. *)
Theorem isTextFile_name_only (toLowerCase : string → string) (lower : ascii → ascii)
    (dir name : string) (sep : ascii) :
  (∀ s, chars (toLowerCase s) = lower <$> chars s) →
  (∀ c, isSeparator (lower c) = isSeparator c) →
  isSeparator sep = true →
  Forall (λ c, isSeparator c = false) (chars name) →
  isTextFile toLowerCase (dir +:+ String sep name) = isTextFile toLowerCase name.
Proof.
  intros Hlower Hkeep Hsep Hname.
  assert (chars (toLowerCase (dir +:+ String sep name))
          = (lower <$> chars dir) ++ lower sep :: (lower <$> chars name)) as Hpath.
  { by rewrite Hlower, chars_app, fmap_app. }
  assert (Forall (λ c, isSeparator c = false) (lower <$> chars name)) as Hname'.
  { apply Forall_fmap. eapply Forall_impl; [exact Hname |]. simpl. intros c.
    by rewrite Hkeep. }
  assert (isSeparator (lower sep) = true) as Hsep' by (by rewrite Hkeep).
  unfold isTextFile. cbn zeta.
  assert (existsb (λ ext, endsWith (toLowerCase (dir +:+ String sep name)) ext) textExtensions
          = existsb (λ ext, endsWith (toLowerCase name) ext) textExtensions) as ->.
  { apply existsb_ext_elem.
    eapply Forall_impl; [apply textExtensions_no_separator |]. simpl.
    intros ext Hext. unfold endsWith. rewrite Hpath, Hlower.
    by apply endsWith_after_separator. }
  assert (fileNameOf (toLowerCase (dir +:+ String sep name))
          = fileNameOf (toLowerCase name)) as ->; [| done].
  unfold fileNameOf. rewrite Hpath, Hlower, splitPath_separator by done.
  rewrite (splitPath_name (lower <$> chars name)) by done.
  rewrite fmap_app. cbn [fmap list_fmap]. by rewrite last_snoc.
Qed.

Lemma asciiToLowerCase_chars s : chars (asciiToLowerCase s) = asciiLowerChar <$> chars s.
Proof. induction s as [|c s IH]; simpl; [done |]. by rewrite IH. Qed.

Lemma asciiLowerChar_separator c : isSeparator (asciiLowerChar c) = isSeparator c.
Proof. by destruct c as [[] [] [] [] [] [] [] []]. Qed.

Lemma isTextFile_name_only_witness :
  isTextFile asciiToLowerCase ("/work/src" +:+ String "/" "Dockerfile.dev")
  = isTextFile asciiToLowerCase "Dockerfile.dev".
Proof.
  apply (isTextFile_name_only asciiToLowerCase asciiLowerChar).
  - apply asciiToLowerCase_chars.
  - apply asciiLowerChar_separator.
  - reflexivity.
  - apply (bool_decide_unpack _). vm_compute. exact I.
Defined.

(** ** The fuzzy filter *)

Section Fuzzy.
Variable toLowerCase : string → string.

(** A needle that matches keeps matching when code units are taken out
    of it or put into the haystack. *)
Lemma fuzzyMatch_monotone s s' p q :
  chars (toLowerCase q) `sublist_of` chars (toLowerCase p) →
  chars (toLowerCase s) `sublist_of` chars (toLowerCase s') →
  fuzzyMatch toLowerCase s p = true → fuzzyMatch toLowerCase s' q = true.
Proof.
  rewrite !fuzzyMatch_sublist. intros Hq Hs Hp. by rewrite Hq, Hp.
Qed.

Lemma sublist_filter_impl {A} (P Q : A → Prop)
    `{!∀ x, Decision (P x)} `{!∀ x, Decision (Q x)} (l : list A) :
  (∀ x, P x → Q x) → filter P l `sublist_of` filter Q l.
Proof.
  intros HPQ. induction l as [|x l IH]; [done |].
  rewrite !filter_cons. destruct (decide (P x)) as [HP | HP].
  - rewrite decide_True by auto. by apply sublist_skip.
  - destruct (decide (Q x)); [by apply sublist_cons | done].
Qed.

Lemma getFilteredTodos_fuzzy p :
  filterPattern p ≠ "" → startsWith (filterPattern p) "@" = false →
  getFilteredTodos toLowerCase p
  = filter (λ todo,
      fuzzyMatch toLowerCase
        (createSearchableString (relativePath todo) (label todo) (text todo))
        (filterPattern p) = true) (todos p).
Proof.
  intros Hne Hat. unfold getFilteredTodos.
  by rewrite bool_decide_eq_false_2, Hat.
Qed.

End Fuzzy.

(** X8: typing more only narrows the view.  When a fuzzy pattern is
    made longer by putting code units into it, every record the longer
    pattern keeps was kept by the shorter one, and the records stay in
    the order of the index. *)
Theorem longer_pattern_narrows (toLowerCase : string → string)
    (p : TodoTreeProvider) (shorter longer : string) :
  chars (toLowerCase shorter) `sublist_of` chars (toLowerCase longer) →
  longer ≠ "" →
  startsWith shorter "@" = false → startsWith longer "@" = false →
  getFilteredTodos toLowerCase (setFilter longer p)
    `sublist_of` getFilteredTodos toLowerCase (setFilter shorter p).
Proof.
  intros Hsub Hne Hs Hl.
  destruct (decide (shorter = "")) as [-> | Hne'].
  { change (getFilteredTodos toLowerCase (setFilter "" p)) with (todos p).
    apply (getFilteredTodos_sublist toLowerCase (setFilter longer p)). }
  rewrite !getFilteredTodos_fuzzy by done. simpl.
  apply sublist_filter_impl. intros todo.
  by apply fuzzyMatch_monotone.
Qed.

Lemma longer_pattern_narrows_witness :
  getFilteredTodos asciiToLowerCase (setFilter "fix a" scanned)
    `sublist_of` getFilteredTodos asciiToLowerCase (setFilter "FX" scanned).
Proof.
  apply (longer_pattern_narrows asciiToLowerCase scanned "FX" "fix a").
  - apply (proj1 (fuzzyMatch_sublist asciiToLowerCase "fix a" "FX")). reflexivity.
  - discriminate.
  - reflexivity.
  - reflexivity.
Defined.

Lemma createSearchableString_display rel lbl txt :
  createSearchableString rel lbl txt
  = rel +:+ " " +:+ ("TODO(" +:+ lbl +:+ "): " +:+ txt).
Proof. reflexivity. Qed.

(** X9: a record is found by what it shows.  For a host whose
    lower-casing goes through concatenation, a filter pattern that is
    the relative path, the label, the text or the displayed
    [TODO(label): text] of a record, and does not start with [@],
    keeps that record. *)
Theorem found_by_own_fields (toLowerCase : string → string)
    (p : TodoTreeProvider) (todo : TodoItem) (pattern : string) :
  (∀ a b, toLowerCase (a +:+ b) = toLowerCase a +:+ toLowerCase b) →
  todo ∈ todos p →
  pattern ∈ [relativePath todo; label todo; text todo;
             "TODO(" +:+ label todo +:+ "): " +:+ text todo] →
  startsWith pattern "@" = false →
  todo ∈ getFilteredTodos toLowerCase (setFilter pattern p).
Proof.
  intros Happ Hin Hpat Hat.
  destruct (decide (pattern = "")) as [-> | Hne]; [done |].
  rewrite getFilteredTodos_fuzzy by done.
  apply list_elem_of_filter. split; [| done]. simpl.
  apply fuzzyMatch_sublist.
  rewrite createSearchableString_display, !Happ, !chars_app.
  repeat (apply elem_of_cons in Hpat as [-> | Hpat]);
    [| | | | by apply elem_of_nil in Hpat].
  - by apply sublist_inserts_r.
  - do 3 apply sublist_inserts_l. by apply sublist_inserts_r.
  - by do 5 apply sublist_inserts_l.
  - rewrite !Happ, !chars_app. by do 2 apply sublist_inserts_l.
Qed.

Lemma asciiToLowerCase_app a b :
  asciiToLowerCase (a +:+ b) = asciiToLowerCase a +:+ asciiToLowerCase b.
Proof. induction a as [|c a IH]; simpl; [done |]. by rewrite IH. Qed.

Lemma found_by_own_fields_witness :
  {| label := "y"; text := "fix b"; filePath := "/work/a.ts";
     relativePath := "a.ts"; line := 1; column := 3 |}
  ∈ getFilteredTodos asciiToLowerCase (setFilter "fix b" scanned).
Proof.
  apply (found_by_own_fields asciiToLowerCase scanned).
  - apply asciiToLowerCase_app.
  - vm_compute. right. left.
  - right. right. left.
  - reflexivity.
Defined.

(** ** The tree, level by level *)

Section Levels.
Variable toLowerCase : string → string.
Variable localeCompare : string → string → Z.
Implicit Types (p : TodoTreeProvider) (node : TodoTreeItem.t) (l : string).

Lemma truthy_Some l : l ≠ "" → truthy (Some l) = Some l.
Proof. intros H. simpl. by rewrite bool_decide_eq_false_2. Qed.

(** The label nodes of the root stand for the labels of the filtered
    records, with their counts. *)
Lemma root_label_node p node l :
  viewMode p ≠ flat → node ∈ getChildren toLowerCase localeCompare p None →
  TodoTreeItem.todoLabel node = Some l →
  node = labelNode (l, length (filter (λ t, label t = l) (getFilteredTodos toLowerCase p)))
  ∧ ∃ todo, todo ∈ getFilteredTodos toLowerCase p ∧ label todo = l.
Proof.
  intros Hmode Hin Hl. rewrite getChildren_root in Hin by done.
  apply list_elem_of_fmap in Hin as ([k n] & -> & Hg).
  destruct (sortedCounts_groupBy localeCompare label (getFilteredTodos toLowerCase p))
    as (_ & _ & Hkeys & Hcount & _).
  rewrite Forall_forall in Hcount. specialize (Hcount _ Hg).
  simpl in Hl, Hcount. injection Hl as ->. subst n. split; [done |].
  assert (l ∈ (sortedCounts localeCompare (groupBy label (getFilteredTodos toLowerCase p))).*1) as Hk.
  { apply list_elem_of_fmap. by exists (l, length (filter (λ t, label t = l) (getFilteredTodos toLowerCase p))). }
  apply Hkeys, list_elem_of_fmap in Hk as (todo & ? & ?). eauto.
Qed.

Lemma label_node_children p l n :
  l ≠ "" →
  getChildren toLowerCase localeCompare p (Some (labelNode (l, n)))
  = if bool_decide (viewMode p = byTag)
    then getTodosForLabel localeCompare (getFilteredTodos toLowerCase p) l
    else getFileGroups localeCompare (getFilteredTodos toLowerCase p) l.
Proof. intros Hl. unfold getChildren. simpl. by rewrite bool_decide_eq_false_2. Qed.

Lemma file_node_children p l g :
  l ≠ "" → g.1 ≠ "" →
  getChildren toLowerCase localeCompare p (Some (fileNode l g)) = getTodosForFile localeCompare (getFilteredTodos toLowerCase p) l g.1.
Proof.
  intros Hl Hg. unfold getChildren. simpl. by rewrite !bool_decide_eq_false_2.
Qed.

Lemma leaf_children p node :
  TodoTreeItem.nodeType node = NodeTodo → getChildren toLowerCase localeCompare p (Some node) = [].
Proof. intros H. unfold getChildren. by rewrite H. Qed.

Lemma getTodosForLabel_items ts l :
  TodoTreeItem.todoItem <$> getTodosForLabel localeCompare ts l
  = Some <$> sortBy (λ a b, localeCompare (text a) (text b)) (filter (λ t, label t = l) ts).
Proof. unfold getTodosForLabel. by rewrite <- !list_fmap_compose. Qed.

Lemma getTodosForFile_items ts l file :
  TodoTreeItem.todoItem <$> getTodosForFile localeCompare ts l file
  = Some <$> sortBy (λ a b, localeCompare (text a) (text b))
               (filter (λ t, label t = l ∧ relativePath t = file) ts).
Proof. unfold getTodosForFile. by rewrite <- !list_fmap_compose. Qed.

End Levels.

(** X10: in byTag mode the number on a label node is the number of its
    children.  The children of a root node with a non-empty label are
    leaves, one for each filtered record with that label, and the node
    displays the label with their number. *)
Theorem byTag_count_is_children (toLowerCase : string → string)
    (localeCompare : string → string → Z)
    (p : TodoTreeProvider) (node : TodoTreeItem.t) (l : string) :
  viewMode p = byTag →
  node ∈ getChildren toLowerCase localeCompare p None →
  TodoTreeItem.todoLabel node = Some l → l ≠ "" →
  let kids := getChildren toLowerCase localeCompare p (Some node) in
  TodoTreeItem.label node = l +:+ " (" +:+ pretty (length kids) +:+ ")"
  ∧ TodoTreeItem.todoItem <$> kids
    ≡ₚ Some <$> filter (λ t, label t = l) (getFilteredTodos toLowerCase p)
  ∧ Forall (λ kid, TodoTreeItem.nodeType kid = NodeTodo) kids.
Proof.
  intros Hmode Hin Hl Hne.
  destruct (root_label_node toLowerCase localeCompare p node l) as [-> _];
    [by rewrite Hmode | done..|].
  cbn zeta. rewrite label_node_children, bool_decide_eq_true_2 by done.
  split; [| split].
  - unfold getTodosForLabel. by rewrite length_fmap, sortBy_Permutation.
  - by rewrite getTodosForLabel_items, sortBy_Permutation.
  - unfold getTodosForLabel. apply Forall_fmap, Forall_true. done.
Qed.

Lemma byTag_count_is_children_witness :
  let p := (toggleViewMode scanned).2 in
  let node := labelNode ("x", 2%nat) in
  let kids := getChildren asciiToLowerCase codeUnitCompare p (Some node) in
  TodoTreeItem.label node = "x" +:+ " (" +:+ pretty (length kids) +:+ ")"
  ∧ TodoTreeItem.todoItem <$> kids
    ≡ₚ Some <$> filter (λ t, label t = "x") (getFilteredTodos asciiToLowerCase p)
  ∧ Forall (λ kid, TodoTreeItem.nodeType kid = NodeTodo) kids.
Proof.
  intros p node.
  apply (byTag_count_is_children asciiToLowerCase codeUnitCompare p node "x").
  - reflexivity.
  - vm_compute. left.
  - reflexivity.
  - discriminate.
Defined.

(** X11: in grouped mode the files under a label split its records.
    The children of a root node with a non-empty label are file nodes
    with pairwise distinct paths, their counts add up to the number on
    the label node, and a file node with a non-empty path has as many
    children as its count says: the leaves of the filtered records with
    that label in that file. *)
Theorem grouped_files_split_label (toLowerCase : string → string)
    (localeCompare : string → string → Z)
    (p : TodoTreeProvider) (node : TodoTreeItem.t) (l : string) :
  viewMode p = grouped →
  node ∈ getChildren toLowerCase localeCompare p None →
  TodoTreeItem.todoLabel node = Some l → l ≠ "" →
  ∃ groups : list (string * nat),
    getChildren toLowerCase localeCompare p (Some node) = fileNode l <$> groups
    ∧ NoDup groups.*1
    ∧ TodoTreeItem.label node = l +:+ " (" +:+ pretty (sum_list groups.*2) +:+ ")"
    ∧ ∀ g, g ∈ groups → g.1 ≠ "" →
        let leaves := getChildren toLowerCase localeCompare p (Some (fileNode l g)) in
        length leaves = g.2
        ∧ TodoTreeItem.todoItem <$> leaves
          ≡ₚ Some <$> filter (λ t, label t = l ∧ relativePath t = g.1)
                        (getFilteredTodos toLowerCase p).
Proof.
  intros Hmode Hin Hl Hne.
  destruct (root_label_node toLowerCase localeCompare p node l) as [-> _];
    [by rewrite Hmode | done..|].
  rewrite label_node_children, bool_decide_eq_false_2 by (done || by rewrite Hmode).
  unfold getFileGroups. cbn zeta.
  set (ts := filter (λ t, label t = l) (getFilteredTodos toLowerCase p)).
  destruct (sortedCounts_groupBy localeCompare relativePath ts)
    as (_ & Hnd & _ & Hcount & Hsum).
  exists (sortedCounts localeCompare (groupBy relativePath ts)).
  split; [done |]. split; [done |]. split; [by rewrite Hsum |].
  intros g Hg Hfile. rewrite Forall_forall in Hcount. specialize (Hcount g Hg).
  cbn zeta. rewrite file_node_children by done.
  assert (filter (λ t, relativePath t = g.1) ts
          = filter (λ t, label t = l ∧ relativePath t = g.1)
              (getFilteredTodos toLowerCase p)) as Hts.
  { unfold ts. rewrite list_filter_filter. apply list_filter_iff. tauto. }
  split.
  - rewrite Hcount, Hts. unfold getTodosForFile.
    by rewrite length_fmap, sortBy_Permutation.
  - by rewrite getTodosForFile_items, sortBy_Permutation.
Qed.

Lemma grouped_files_split_label_witness :
  ∃ groups : list (string * nat),
    getChildren asciiToLowerCase codeUnitCompare scanned (Some (labelNode ("x", 2%nat)))
    = fileNode "x" <$> groups
    ∧ NoDup groups.*1
    ∧ TodoTreeItem.label (labelNode ("x", 2%nat))
      = "x" +:+ " (" +:+ pretty (sum_list groups.*2) +:+ ")"
    ∧ ∀ g, g ∈ groups → g.1 ≠ "" →
        let leaves :=
          getChildren asciiToLowerCase codeUnitCompare scanned (Some (fileNode "x" g)) in
        length leaves = g.2
        ∧ TodoTreeItem.todoItem <$> leaves
          ≡ₚ Some <$> filter (λ t, label t = "x" ∧ relativePath t = g.1)
                        (getFilteredTodos asciiToLowerCase scanned).
Proof.
  apply (grouped_files_split_label asciiToLowerCase codeUnitCompare scanned
           (labelNode ("x", 2%nat)) "x").
  - reflexivity.
  - vm_compute. left.
  - reflexivity.
  - discriminate.
Defined.

(** X12: the records with an empty label cannot be opened from the
    grouped and byTag views.  When a filtered record has the empty
    label, as the scanner makes of a label of white space, the root has
    a node for the empty label with a positive count, and that node has
    no children, whatever the view mode. *)
Theorem empty_label_node_has_no_children (toLowerCase : string → string)
    (localeCompare : string → string → Z)
    (p : TodoTreeProvider) (todo : TodoItem) :
  viewMode p ≠ flat →
  todo ∈ getFilteredTodos toLowerCase p → label todo = "" →
  ∃ n, (0 < n)%nat
    ∧ labelNode ("", n) ∈ getChildren toLowerCase localeCompare p None
    ∧ ∀ q, getChildren toLowerCase localeCompare q (Some (labelNode ("", n))) = [].
Proof.
  intros Hmode Hin Hl.
  exists (length (filter (λ t, label t = "") (getFilteredTodos toLowerCase p))).
  split; [| split; [| done]].
  - assert (todo ∈ filter (λ t, label t = "") (getFilteredTodos toLowerCase p)) as Ht
      by (by apply list_elem_of_filter).
    destruct (filter _ _); [by apply elem_of_nil in Ht | simpl; lia].
  - rewrite getChildren_root by done.
    destruct (sortedCounts_groupBy localeCompare label (getFilteredTodos toLowerCase p))
      as (_ & _ & Hkeys & Hcount & _).
    assert ("" ∈ (sortedCounts localeCompare
                    (groupBy label (getFilteredTodos toLowerCase p))).*1) as Hk.
    { apply Hkeys, list_elem_of_fmap. eauto. }
    apply list_elem_of_fmap in Hk as ([k n] & Hk & Hg). simpl in Hk. subst k.
    rewrite Forall_forall in Hcount. pose proof (Hcount _ Hg) as Hn. simpl in Hn.
    subst n. apply list_elem_of_fmap. eauto.
Qed.

Lemma empty_label_node_has_no_children_witness :
  let p := setTodos (scanFile {| fsPath := "/work/e.ts";
                                 workspaceRelative := Some "e.ts";
                                 getText := Some "// TODO( ): who" |})
             initialProvider in
  ∃ n, (0 < n)%nat
    ∧ labelNode ("", n) ∈ getChildren asciiToLowerCase codeUnitCompare p None
    ∧ ∀ q, getChildren asciiToLowerCase codeUnitCompare q (Some (labelNode ("", n))) = [].
Proof.
  intros p.
  apply (empty_label_node_has_no_children asciiToLowerCase codeUnitCompare p
           {| label := ""; text := "who"; filePath := "/work/e.ts";
              relativePath := "e.ts"; line := 0; column := 3 |}).
  - discriminate.
  - vm_compute. left.
  - reflexivity.
Defined.

(** X13: the flat view.  In flat mode the root is one leaf for every
    filtered record and, for a compare function that is total and
    transitive, the leaves are in the order of what they display. *)
Theorem flat_root_sorted (toLowerCase : string → string)
    (localeCompare : string → string → Z) (p : TodoTreeProvider) :
  viewMode p = flat →
  (∀ a b, localeCompare a b ≤ 0 ∨ localeCompare b a ≤ 0) →
  (∀ a b c, localeCompare a b ≤ 0 → localeCompare b c ≤ 0 → localeCompare a c ≤ 0) →
  let root := getChildren toLowerCase localeCompare p None in
  TodoTreeItem.todoItem <$> root ≡ₚ Some <$> getFilteredTodos toLowerCase p
  ∧ Forall (λ leaf, TodoTreeItem.nodeType leaf = NodeTodo) root
  ∧ StronglySorted (cmpLe localeCompare) (TodoTreeItem.label <$> root).
Proof.
  intros Hmode Htotal Htrans. cbn zeta. unfold getChildren.
  rewrite bool_decide_eq_true_2 by done. unfold getFlatItems.
  set (cmp := λ a b, localeCompare (todoDisplay a) (todoDisplay b)).
  split; [| split].
  - rewrite <- list_fmap_compose.
    change (Some <$> sortBy cmp (getFilteredTodos toLowerCase p)
            ≡ₚ Some <$> getFilteredTodos toLowerCase p).
    by rewrite sortBy_Permutation.
  - apply Forall_fmap, Forall_true. done.
  - rewrite <- list_fmap_compose.
    apply (StronglySorted_fmap _ (cmpLe cmp)); [done |].
    apply sortBy_sorted; unfold cmp; [intros a b; apply Htotal |].
    intros a b c. apply Htrans.
Qed.

Lemma flat_root_sorted_witness :
  let root := getChildren asciiToLowerCase codeUnitCompare scannedFlat None in
  TodoTreeItem.todoItem <$> root ≡ₚ Some <$> getFilteredTodos asciiToLowerCase scannedFlat
  ∧ Forall (λ leaf, TodoTreeItem.nodeType leaf = NodeTodo) root
  ∧ StronglySorted (cmpLe codeUnitCompare) (TodoTreeItem.label <$> root).
Proof.
  apply (flat_root_sorted asciiToLowerCase codeUnitCompare scannedFlat).
  - reflexivity.
  - apply codeUnitCompare_total.
  - apply codeUnitCompare_trans.
Defined.

(** X14: the order of the leaves under a label.  In byTag mode, for a
    compare function that is total and transitive, the children of a
    node with a non-empty label are the leaves of its records sorted by
    text, and records with the same text keep the order of the
    index. *)
Theorem byTag_leaves_sorted_stable (toLowerCase : string → string)
    (localeCompare : string → string → Z)
    (p : TodoTreeProvider) (l : string) (n : nat) :
  viewMode p = byTag → l ≠ "" →
  (∀ a b, localeCompare a b ≤ 0 ∨ localeCompare b a ≤ 0) →
  (∀ a b c, localeCompare a b ≤ 0 → localeCompare b c ≤ 0 → localeCompare a c ≤ 0) →
  ∃ records,
    TodoTreeItem.todoItem
      <$> getChildren toLowerCase localeCompare p (Some (labelNode (l, n)))
    = Some <$> records
    ∧ StronglySorted (cmpLe localeCompare) (text <$> records)
    ∧ ∀ txt, filter (λ t, text t = txt) records
             = filter (λ t, text t = txt)
                 (filter (λ t, label t = l) (getFilteredTodos toLowerCase p)).
Proof.
  intros Hmode Hl Htotal Htrans.
  rewrite label_node_children, bool_decide_eq_true_2 by done.
  set (cmp := λ a b, localeCompare (text a) (text b)).
  exists (sortBy cmp (filter (λ t, label t = l) (getFilteredTodos toLowerCase p))).
  split; [apply getTodosForLabel_items |]. split.
  - apply (StronglySorted_fmap _ (cmpLe cmp)); [done |].
    apply sortBy_sorted; unfold cmp; [intros a b; apply Htotal |].
    intros a b c. apply Htrans.
  - intros txt. apply sortBy_stable. intros a b Ha Hb. unfold cmp.
    rewrite Ha, Hb. by destruct (Htotal txt txt).
Qed.

Lemma byTag_leaves_sorted_stable_witness :
  ∃ records,
    TodoTreeItem.todoItem
      <$> getChildren asciiToLowerCase codeUnitCompare (toggleViewMode scanned).2
            (Some (labelNode ("x", 2%nat)))
    = Some <$> records
    ∧ StronglySorted (cmpLe codeUnitCompare) (text <$> records)
    ∧ ∀ txt, filter (λ t, text t = txt) records
             = filter (λ t, text t = txt)
                 (filter (λ t, label t = "x")
                    (getFilteredTodos asciiToLowerCase (toggleViewMode scanned).2)).
Proof.
  apply (byTag_leaves_sorted_stable asciiToLowerCase codeUnitCompare).
  - reflexivity.
  - discriminate.
  - apply codeUnitCompare_total.
  - apply codeUnitCompare_trans.
Defined.

(** X15: the tree is three levels deep at most.  A node that is reached
    from the root in three steps is a leaf, and a leaf has no
    children. *)
Theorem tree_depth (toLowerCase : string → string)
    (localeCompare : string → string → Z)
    (p : TodoTreeProvider) (n1 n2 n3 : TodoTreeItem.t) :
  n1 ∈ getChildren toLowerCase localeCompare p None →
  n2 ∈ getChildren toLowerCase localeCompare p (Some n1) →
  n3 ∈ getChildren toLowerCase localeCompare p (Some n2) →
  TodoTreeItem.nodeType n1 = NodeLabel
  ∧ TodoTreeItem.nodeType n2 = NodeFile
  ∧ TodoTreeItem.nodeType n3 = NodeTodo
  ∧ getChildren toLowerCase localeCompare p (Some n3) = [].
Proof.
  intros H1 H2 H3.
  assert (∀ node element,
            node ∈ getChildren toLowerCase localeCompare p element →
            TodoTreeItem.nodeType node = NodeTodo ∨
            (TodoTreeItem.nodeType node = NodeLabel ∧ element = None) ∨
            (TodoTreeItem.nodeType node = NodeFile
             ∧ ∃ e, element = Some e ∧ TodoTreeItem.nodeType e = NodeLabel)) as Hkind.
  { intros node element. unfold getChildren. destruct element as [e |].
    - destruct (TodoTreeItem.nodeType e) eqn:He,
        (truthy (TodoTreeItem.todoLabel e)) as [lbl |];
        try (by intros ?%elem_of_nil).
      + case_bool_decide.
        * unfold getTodosForLabel. intros (todo & -> & _)%list_elem_of_fmap.
          by left.
        * intros ?%getFileGroups_nodeType. right. right. eauto.
      + destruct (truthy (TodoTreeItem.fileName e)); [| by intros ?%elem_of_nil].
        unfold getTodosForFile. intros (todo & -> & _)%list_elem_of_fmap. by left.
    - case_bool_decide.
      + unfold getFlatItems. intros (todo & -> & _)%list_elem_of_fmap. by left.
      + intros ?%getLabelGroups_nodeType. right. left. done. }
  assert (∀ node, TodoTreeItem.nodeType node = NodeTodo →
            getChildren toLowerCase localeCompare p (Some node) = []) as Hleaf
    by (intros; by apply leaf_children).
  destruct (Hkind _ _ H1) as [Hk1 | [[Hk1 _] | (_ & e & [=] & _)]].
  { rewrite Hleaf in H2 by done. by apply elem_of_nil in H2. }
  destruct (Hkind _ _ H2) as [Hk2 | [[_ [=]] | [Hk2 _]]].
  { rewrite Hleaf in H3 by done. by apply elem_of_nil in H3. }
  destruct (Hkind _ _ H3) as [Hk3 | [[_ [=]] | (_ & e & [= <-] & He)]];
    [| congruence].
  auto.
Qed.

Lemma tree_depth_witness :
  let n1 := labelNode ("x", 2%nat) in
  let n2 := fileNode "x" ("a.ts", 1%nat) in
  let n3 := TodoTreeItem.new "fix a" StateNone NodeTodo
              (hd_error (todos scanned)) (Some "x") (Some "a.ts") in
  TodoTreeItem.nodeType n1 = NodeLabel
  ∧ TodoTreeItem.nodeType n2 = NodeFile
  ∧ TodoTreeItem.nodeType n3 = NodeTodo
  ∧ getChildren asciiToLowerCase codeUnitCompare scanned (Some n3) = [].
Proof.
  intros n1 n2 n3.
  apply (tree_depth asciiToLowerCase codeUnitCompare scanned n1 n2 n3);
    vm_compute; left.
Defined.

(** X16: every record with a label can be opened from the grouped view.
    In grouped mode a filtered record whose label and relative path are
    not empty is the record of a leaf under the file node of its path,
    under the root node of its label. *)
Theorem grouped_record_reachable (toLowerCase : string → string)
    (localeCompare : string → string → Z)
    (p : TodoTreeProvider) (todo : TodoItem) :
  viewMode p = grouped →
  todo ∈ getFilteredTodos toLowerCase p →
  label todo ≠ "" → relativePath todo ≠ "" →
  ∃ n1 n2 n3,
    n1 ∈ getChildren toLowerCase localeCompare p None
    ∧ TodoTreeItem.todoLabel n1 = Some (label todo)
    ∧ n2 ∈ getChildren toLowerCase localeCompare p (Some n1)
    ∧ TodoTreeItem.fileName n2 = Some (relativePath todo)
    ∧ n3 ∈ getChildren toLowerCase localeCompare p (Some n2)
    ∧ TodoTreeItem.todoItem n3 = Some todo.
Proof.
  intros Hmode Hin Hl Hfile.
  set (ts := getFilteredTodos toLowerCase p) in *.
  set (tl := filter (λ t, label t = label todo) ts).
  destruct (sortedCounts_groupBy localeCompare label ts) as (_ & _ & Hkeys & _).
  destruct (sortedCounts_groupBy localeCompare relativePath tl) as (_ & _ & Hfiles & _).
  assert (label todo ∈ (sortedCounts localeCompare (groupBy label ts)).*1) as Hk.
  { apply Hkeys, list_elem_of_fmap. eauto. }
  apply list_elem_of_fmap in Hk as (g1 & Hg1 & Hin1).
  assert (relativePath todo ∈ (sortedCounts localeCompare (groupBy relativePath tl)).*1)
    as Hf.
  { apply Hfiles, list_elem_of_fmap. exists todo. split; [done |].
    by apply list_elem_of_filter. }
  apply list_elem_of_fmap in Hf as (g2 & Hg2 & Hin2).
  exists (labelNode g1), (fileNode (label todo) g2),
    (TodoTreeItem.new (textOrEmpty todo) StateNone NodeTodo (Some todo)
       (Some (label todo)) (Some (relativePath todo))).
  split; [| split; [| split; [| split; [| split]]]].
  - rewrite getChildren_root by (by rewrite Hmode). apply list_elem_of_fmap. eauto.
  - simpl. by rewrite <- Hg1.
  - destruct g1 as [k n]. simpl in Hg1. subst k.
    rewrite label_node_children, bool_decide_eq_false_2 by (done || by rewrite Hmode).
    apply list_elem_of_fmap. eauto.
  - simpl. by rewrite <- Hg2.
  - rewrite file_node_children by (done || by rewrite <- Hg2).
    unfold getTodosForFile. rewrite <- Hg2. apply list_elem_of_fmap. exists todo.
    split; [done |]. apply elem_of_sortBy, list_elem_of_filter. done.
  - done.
Qed.

Lemma grouped_record_reachable_witness :
  let todo := {| label := "x"; text := "fix c"; filePath := "/work/b.ts";
                 relativePath := "b.ts"; line := 3; column := 3 |} in
  ∃ n1 n2 n3,
    n1 ∈ getChildren asciiToLowerCase codeUnitCompare scanned None
    ∧ TodoTreeItem.todoLabel n1 = Some (label todo)
    ∧ n2 ∈ getChildren asciiToLowerCase codeUnitCompare scanned (Some n1)
    ∧ TodoTreeItem.fileName n2 = Some (relativePath todo)
    ∧ n3 ∈ getChildren asciiToLowerCase codeUnitCompare scanned (Some n2)
    ∧ TodoTreeItem.todoItem n3 = Some todo.
Proof.
  intros todo.
  apply (grouped_record_reachable asciiToLowerCase codeUnitCompare scanned todo).
  - reflexivity.
  - vm_compute. do 2 right. left.
  - discriminate.
  - discriminate.
Defined.

(** ** The commands *)

Lemma handle_consistent toLowerCase ev e :
  consistent e → consistent (handle toLowerCase ev e).
Proof.
  intros (Hq & Hd & Hn).
  assert (∀ e', currentQuery e' = getFilter (treeProvider e') →
            consistent (updateTreeViewTitle e')) as Hupd.
  { intros e' He'. split; [done |]. split; [by right | done]. }
  destruct ev as [query | | [input |] | | [item |] | | [files |]]; simpl;
    try done; try (by apply Hupd).
  destruct (truthy (TodoTreeItem.todoLabel item)); [by apply Hupd | done].
Qed.

(** X17: the search view, the tree and the description stay in step.
    Whatever webview messages, commands and workspace scans have been
    handled since activation, the query the search view remembers is
    the filter of the tree; the description of the view, once set, is
    the one of the current index and filter; and while it is not set
    the index is empty and no filter is in force. *)
Theorem extension_consistent (toLowerCase : string → string) (evs : list Event) :
  consistent (run_events toLowerCase evs activated).
Proof.
  unfold run_events.
  assert (consistent activated) as H0.
  { split; [done |]. split; [by left | done]. }
  revert H0. generalize activated.
  induction evs as [|ev evs IH]; intros e He; simpl; [done |].
  by apply IH, handle_consistent.
Qed.

Lemma NoDup_constant {A} (x : A) (l : list A) :
  NoDup l → Forall (λ y, y = x) l → l ≠ [] → l = [x].
Proof.
  intros Hnd Hall Hne. destruct l as [|y [|z l]]; [done | |].
  - by apply Forall_cons in Hall as [-> _].
  - apply Forall_cons in Hall as [-> Hall]. apply Forall_cons in Hall as [-> _].
    apply NoDup_cons in Hnd as [Hnin _]. exfalso. apply Hnin. left.
Qed.

(** The groups of records that all have one key. *)
Lemma sortedCounts_constant (localeCompare : string → string → Z)
    (key : TodoItem → string) (k : string) (ts : list TodoItem) :
  ts ≠ [] → Forall (λ t, key t = k) ts →
  sortedCounts localeCompare (groupBy key ts) = [(k, length ts)].
Proof.
  intros Hne Hall.
  destruct (sortedCounts_groupBy localeCompare key ts) as (_ & Hnd & Hkeys & Hcount & _).
  set (groups := sortedCounts localeCompare (groupBy key ts)) in *.
  assert (groups.*1 = [k]) as Hk.
  { apply NoDup_constant; [done | |].
    - apply Forall_forall. intros k' (t & -> & Hin)%Hkeys%list_elem_of_fmap.
      by apply (proj1 (Forall_forall _ _) Hall).
    - destruct ts as [|t ts]; [done |]. intros Hnil.
      assert (key t ∈ groups.*1) as Hin by (apply Hkeys; left).
      rewrite Hnil in Hin. by apply elem_of_nil in Hin. }
  destruct groups as [|[k' n] [|g groups]]; try done.
  simpl in Hk. injection Hk as ->.
  apply Forall_cons in Hcount as [Hn _]. simpl in Hn.
  by rewrite Hn, filter_all.
Qed.

(** X18: scoping to a label.  When the command is run on a root node of
    the grouped or the byTag view whose label is not empty, the filter
    and the query of the search view become [@] and the label, the
    filter the tree had is dropped, the filtered records are the
    records of the index with that label, and the root becomes the one
    node of that label with the count over the index; if no filter was
    in force the root is the node itself. *)
Theorem scopeToLabel_root (toLowerCase : string → string)
    (localeCompare : string → string → Z)
    (e : Extension) (item : TodoTreeItem.t) (l : string) :
  viewMode (treeProvider e) ≠ flat →
  item ∈ getChildren toLowerCase localeCompare (treeProvider e) None →
  TodoTreeItem.todoLabel item = Some l → l ≠ "" →
  let e' := handle toLowerCase (ScopeToLabelCommand (Some item)) e in
  let labelled := filter (λ t, label t = l) (getTodos (treeProvider e)) in
  currentQuery e' = "@" +:+ l
  ∧ getFilter (treeProvider e') = "@" +:+ l
  ∧ description e' = Some ("Filtering: " +:+ doubleQuote +:+ "@" +:+ l +:+ doubleQuote)
  ∧ getFilteredTodos toLowerCase (treeProvider e') = labelled
  ∧ getChildren toLowerCase localeCompare (treeProvider e') None
    = [labelNode (l, length labelled)]
  ∧ (getFilter (treeProvider e) = "" →
     getChildren toLowerCase localeCompare (treeProvider e') None = [item]).
Proof.
  intros Hmode Hin Hl Hne. cbn zeta. unfold handle. rewrite Hl. simpl.
  rewrite bool_decide_eq_false_2 by done.
  set (p' := setFilter ("@" +:+ l) (treeProvider e)).
  assert (getFilteredTodos toLowerCase p'
          = filter (λ t, label t = l) (todos (treeProvider e))) as Hf.
  { assert (startsWith (filterPattern p') "@" = true) as Hat.
    { simpl. by destruct l. }
    by rewrite getFilteredTodos_label. }
  rewrite getChildren_root in Hin by done.
  apply list_elem_of_fmap in Hin as ([k n] & -> & Hin). simpl in Hl.
  injection Hl as ->.
  destruct (sortedCounts_groupBy localeCompare label
              (getFilteredTodos toLowerCase (treeProvider e)))
    as (_ & _ & Hkeys & Hcount & _).
  assert (l ∈ label <$> getFilteredTodos toLowerCase (treeProvider e)) as Hlab.
  { apply Hkeys, list_elem_of_fmap. by exists (l, n). }
  assert (getChildren toLowerCase localeCompare p' None
          = [labelNode (l, length (filter (λ t, label t = l) (todos (treeProvider e))))])
    as Hroot.
  { rewrite getChildren_root by done. rewrite Hf.
    rewrite (sortedCounts_constant _ _ l).
    - done.
    - apply list_elem_of_fmap in Hlab as (t & Ht & Hin').
      assert (t ∈ filter (λ t, label t = l) (todos (treeProvider e))) as Hin''.
      { apply list_elem_of_filter. split; [done |].
        eapply elem_of_sublist; [done | apply getFilteredTodos_sublist]. }
      intros Hnil. rewrite Hnil in Hin''. by apply elem_of_nil in Hin''.
    - apply Forall_forall. by intros t [? _]%list_elem_of_filter. }
  do 3 (split; [done |]). split; [exact Hf |]. split; [exact Hroot |].
  intros Hnone. etrans; [exact Hroot |]. do 3 f_equal.
  apply (proj1 (Forall_forall _ _) Hcount) in Hin. simpl in Hin. rewrite Hin.
  unfold getFilteredTodos. unfold getFilter in Hnone.
  by rewrite bool_decide_eq_true_2.
Qed.

Lemma scopeToLabel_root_witness :
  let e := run_events asciiToLowerCase [ScanWorkspace (Some [a_ts; b_ts])] activated in
  let item := labelNode ("x", 2%nat) in
  let e' := handle asciiToLowerCase (ScopeToLabelCommand (Some item)) e in
  let labelled := filter (λ t, label t = "x") (getTodos (treeProvider e)) in
  currentQuery e' = "@" +:+ "x"
  ∧ getFilter (treeProvider e') = "@" +:+ "x"
  ∧ description e' = Some ("Filtering: " +:+ doubleQuote +:+ "@" +:+ "x" +:+ doubleQuote)
  ∧ getFilteredTodos asciiToLowerCase (treeProvider e') = labelled
  ∧ getChildren asciiToLowerCase codeUnitCompare (treeProvider e') None
    = [labelNode ("x", length labelled)]
  ∧ (getFilter (treeProvider e) = "" →
     getChildren asciiToLowerCase codeUnitCompare (treeProvider e') None = [item]).
Proof.
  intros e item.
  apply (scopeToLabel_root asciiToLowerCase codeUnitCompare e item "x").
  - discriminate.
  - vm_compute. left.
  - reflexivity.
  - discriminate.
Defined.

Lemma handle_todos toLowerCase ev e :
  (∀ found, ev ≠ ScanWorkspace found) →
  getTodos (treeProvider (handle toLowerCase ev e)) = getTodos (treeProvider e).
Proof.
  intros Hev. destruct ev as [query | | [input |] | | [item |] | | found]; simpl;
    try done.
  - by destruct (truthy (TodoTreeItem.todoLabel item)).
  - by destruct (Hev found).
Qed.

Lemma run_events_todos toLowerCase evs e :
  (∀ found, ScanWorkspace found ∉ evs) →
  getTodos (treeProvider (run_events toLowerCase evs e)) = getTodos (treeProvider e).
Proof.
  unfold run_events. revert e. induction evs as [|ev evs IH]; intros e Hevs; simpl;
    [done |].
  rewrite IH.
  - apply handle_todos. intros found ->. apply (Hevs found). left.
  - intros found Hin. apply (Hevs found). by right.
Qed.

(** X19: searching loses nothing.  Messages of the search view and
    commands other than a workspace scan leave the index as it is, and
    after them the clear command shows every record of the index again:
    the filter and the query are empty and the description is the count
    of the index. *)
Theorem clear_shows_index (toLowerCase : string → string)
    (evs : list Event) (e : Extension) :
  (∀ found, ScanWorkspace found ∉ evs) →
  let e' := handle toLowerCase ClearSearchCommand (run_events toLowerCase evs e) in
  getTodos (treeProvider (run_events toLowerCase evs e)) = getTodos (treeProvider e)
  ∧ getFilteredTodos toLowerCase (treeProvider e') = getTodos (treeProvider e)
  ∧ currentQuery e' = ""
  ∧ description e' = Some (treeViewTitle (setFilter "" (treeProvider e))).
Proof.
  intros Hevs. cbn zeta. pose proof (run_events_todos toLowerCase evs e Hevs) as Htodos.
  split; [done |]. split; [exact Htodos |]. split; [done |].
  simpl. unfold treeViewTitle. simpl. unfold getTodos in Htodos. by rewrite Htodos.
Qed.

Lemma clear_shows_index_witness :
  let e := run_events asciiToLowerCase [ScanWorkspace (Some [a_ts; b_ts])] activated in
  let evs := [WebviewSearch "fix"; ToggleFlatCommand;
              ScopeToLabelCommand (Some (labelNode ("x", 2%nat)));
              SearchCommand (Some "b.ts")] in
  let e' := handle asciiToLowerCase ClearSearchCommand
              (run_events asciiToLowerCase evs e) in
  getTodos (treeProvider (run_events asciiToLowerCase evs e)) = getTodos (treeProvider e)
  ∧ getFilteredTodos asciiToLowerCase (treeProvider e') = getTodos (treeProvider e)
  ∧ currentQuery e' = ""
  ∧ description e' = Some (treeViewTitle (setFilter "" (treeProvider e))).
Proof.
  intros e evs. apply (clear_shows_index asciiToLowerCase evs e).
  intros found Hin. unfold evs in Hin.
  repeat (apply elem_of_cons in Hin as [Hin | Hin]; [discriminate |]).
  by apply elem_of_nil in Hin.
Defined.

(** ** The description of the view *)

Lemma chars_inj a b : chars a = chars b → a = b.
Proof.
  intros H. rewrite <- (string_of_list_ascii_of_string a),
    <- (string_of_list_ascii_of_string b). by rewrite H.
Qed.

Lemma pretty_N_char_digit x : isDigit (pretty_N_char x) = true.
Proof. unfold pretty_N_char. by repeat case_match. Qed.

Lemma pretty_N_go_digits x s :
  ∃ ds, chars (pretty_N_go x s) = ds ++ chars s
        ∧ Forall (λ c, isDigit c = true) ds
        ∧ ((0 < x)%N → ds ≠ []).
Proof.
  revert s. induction (N.lt_wf_0 x) as [x _ IH]. intros s.
  destruct (decide (0 < x)%N) as [Hx | Hx].
  - rewrite pretty_N_go_step by done.
    destruct (IH (x `div` 10)%N) with (s := String (pretty_N_char (x `mod` 10)) s)
      as (ds & Hds & Hall & _).
    { by apply N.div_lt. }
    exists (ds ++ [pretty_N_char (x `mod` 10)%N]). split; [| split].
    + rewrite Hds. simpl. by rewrite <- app_assoc.
    + apply Forall_app. split; [done |]. apply Forall_singleton, pretty_N_char_digit.
    + intros _. by destruct ds.
  - assert (x = 0%N) as -> by lia. rewrite pretty_N_go_0. exists []. done.
Qed.

Lemma pretty_nat_digits (n : nat) :
  Forall (λ c, isDigit c = true) (chars (pretty n)) ∧ chars (pretty n) ≠ [].
Proof.
  unfold pretty, pretty_nat, pretty, pretty_N. case_decide as Hn.
  - split; [| done]. by apply Forall_singleton.
  - destruct (pretty_N_go_digits (N.of_nat n) "") as (ds & Hds & Hall & Hne).
    simpl in Hds. rewrite app_nil_r in Hds. rewrite Hds. split; [done |].
    apply Hne. lia.
Qed.

(** Two lists that agree up to the first element outside a class have
    the same part before it. *)
Lemma app_inv_class {A} (P : A → Prop) (d1 d2 r1 r2 : list A) (c : A) :
  Forall P d1 → Forall P d2 → ¬ P c →
  d1 ++ c :: r1 = d2 ++ c :: r2 → d1 = d2.
Proof.
  intros H1 H2 Hc. revert d2 H2.
  induction H1 as [|x d1 Hx _ IH]; intros [|y d2] H2 Heq; simpl in Heq.
  - done.
  - injection Heq as <- _. by apply Forall_cons in H2 as [? _].
  - by injection Heq as -> _.
  - injection Heq as -> Heq. apply Forall_cons in H2 as [_ H2].
    f_equal. by apply IH.
Qed.

(** X20: the description tells the filter.  Two providers with the same
    description have the same filter pattern and, when it is empty, the
    same number of records in the index: a count is never taken for a
    filter nor a filter for another one. *)
Theorem treeViewTitle_inj (p q : TodoTreeProvider) :
  treeViewTitle p = treeViewTitle q →
  getFilter p = getFilter q
  ∧ (getFilter p = "" → length (getTodos p) = length (getTodos q)).
Proof.
  unfold treeViewTitle. cbn zeta.
  set (n := length (getTodos p)). set (m := length (getTodos q)).
  destruct (pretty_nat_digits n) as [Hn Hn'], (pretty_nat_digits m) as [Hm Hm'].
  intros Heq%(f_equal chars). revert Heq.
  destruct (decide (getFilter p = "")) as [Hp | Hp],
    (decide (getFilter q = "")) as [Hq | Hq];
    rewrite ?(bool_decide_eq_true_2 (getFilter p = "")),
      ?(bool_decide_eq_true_2 (getFilter q = "")),
      ?(bool_decide_eq_false_2 (getFilter p = "")),
      ?(bool_decide_eq_false_2 (getFilter q = "")) by done;
    rewrite !chars_app; intros Heq.
  - split; [congruence |]. intros _.
    apply (app_inv_class (λ c, isDigit c = true)) in Heq; [| done | done | done].
    by apply (inj pretty), chars_inj.
  - exfalso. destruct (chars (pretty n)) as [|c dn]; [done |].
    apply Forall_cons in Hn as [Hc _]. injection Heq as -> _. done.
  - exfalso. destruct (chars (pretty m)) as [|c dm]; [done |].
    apply Forall_cons in Hm as [Hc _]. injection Heq as <- _. done.
  - split; [| done].
    do 2 apply app_inv_head in Heq. apply app_inv_tail in Heq.
    by apply chars_inj.
Qed.

Lemma treeViewTitle_inj_witness :
  getFilter scanned = getFilter scannedFlat
  ∧ (getFilter scanned = "" →
     length (getTodos scanned) = length (getTodos scannedFlat)).
Proof. apply (treeViewTitle_inj scanned scannedFlat). reflexivity. Defined.
